(** * pi-mono extensions: checkpoint store, Ralph loop controller, input history

    A shallow embedding of three small TypeScript components:

    - [InputHistoryManager]  (packages/coding-agent/src/core/input-history.ts)
    - the checkpoint extension (loadCheckpoint, listCheckpoints, the
      /checkpoint command handler)
    - the Ralph Wiggum extension (extractPromiseText, parseArgs,
      getContextUsagePercent, the agent_end handler and the commands around it)

    JavaScript strings are sequences of UTF-16 code units, numbers that are
    produced by floating-point arithmetic are IEEE doubles (primitive floats),
    counters are integers.  Exceptions are explicit ([completion]); the
    effects of a handler on its host are returned as a list. *)

From Stdlib Require Import ZArith List Bool Lia String Ascii Floats.
From Stdlib Require Import Permutation Sorted DecimalString.
Import ListNotations.

Set Implicit Arguments.
Open Scope Z_scope.

(* ================================================================== *)
(** ** JavaScript values used by the three components *)
(* ================================================================== *)

Module JS.

(** A string is its sequence of UTF-16 code units. *)
Definition jsstring := list N.

(** [js "abc"] is the JavaScript string with the same (ASCII) characters. *)
Definition js (s : string) : jsstring :=
  map N_of_ascii (list_ascii_of_string s).

(** The same, with an apostrophe in the literal standing for the double
    quote character (code unit 34). *)
Definition jsq (s : string) : jsstring :=
  map (fun c => if (c =? 39)%N then 34%N else c) (js s).

Definition str_eqb (a b : jsstring) : bool :=
  if list_eq_dec N.eq_dec a b then true else false.

(** Truthiness of a string: every string but the empty one. *)
Definition truthy (s : jsstring) : bool :=
  match s with [] => false | _ :: _ => true end.

(** Truthiness of [string | null]. *)
Definition truthy_opt (s : option jsstring) : bool :=
  match s with Some t => truthy t | None => false end.

(** WhiteSpace and LineTerminator code units: what [String.prototype.trim]
    strips and what [\s] matches. *)
Definition is_ws (c : N) : bool :=
  ((9 <=? c) && (c <=? 13) || (c =? 32) || (c =? 160) || (c =? 5760)
   || (8192 <=? c) && (c <=? 8202)
   || (c =? 8232) || (c =? 8233) || (c =? 8239) || (c =? 8287)
   || (c =? 12288) || (c =? 65279))%N.

Fixpoint dropWhile (p : N -> bool) (s : jsstring) : jsstring :=
  match s with
  | [] => []
  | c :: s' => if p c then dropWhile p s' else s
  end.

Definition trimStart (s : jsstring) : jsstring := dropWhile is_ws s.
Definition trimEnd (s : jsstring) : jsstring := rev (dropWhile is_ws (rev s)).

(** [String.prototype.trim]. *)
Definition trim (s : jsstring) : jsstring := trimEnd (trimStart s).

(** [s.startsWith(p)], returning what follows the prefix. *)
Fixpoint strip_prefix (p s : jsstring) : option jsstring :=
  match p, s with
  | [], _ => Some s
  | _ :: _, [] => None
  | a :: p', b :: s' => if (a =? b)%N then strip_prefix p' s' else None
  end.

Definition startsWith (s p : jsstring) : bool :=
  match strip_prefix p s with Some _ => true | None => false end.

Definition endsWith (s p : jsstring) : bool := startsWith (rev s) (rev p).

(** [s.includes(p)]. *)
Fixpoint includes (s p : jsstring) : bool :=
  startsWith s p || match s with [] => false | _ :: s' => includes s' p end.

(** [parts.join(sep)]. *)
Fixpoint join (sep : jsstring) (parts : list jsstring) : jsstring :=
  match parts with
  | [] => []
  | [p] => p
  | p :: rest => p ++ sep ++ join sep rest
  end.

(** [s.split(/\s+/)]: the pieces between maximal runs of whitespace. *)
Fixpoint split_on_ws (in_separator : bool) (s cur : jsstring) : list jsstring :=
  match s with
  | [] => [rev cur]
  | c :: s' =>
      if is_ws c then
        if in_separator then split_on_ws true s' cur
        else rev cur :: split_on_ws true s' []
      else split_on_ws false s' (c :: cur)
  end.

Definition split_ws (s : jsstring) : list jsstring := split_on_ws false s [].

(** [String.prototype.toLowerCase] on the code units whose lower case is
    an ASCII letter: A to Z and the Kelvin sign.  The other case mappings
    turn a non-ASCII unit into non-ASCII units, which no ASCII word
    contains, and are left as they are. *)
Definition toLowerCase (s : jsstring) : jsstring :=
  map (fun c => if ((65 <=? c) && (c <=? 90))%N then (c + 32)%N
                else if (c =? 8490)%N then 107%N else c) s.

(** Decimal rendering of a non-negative integer, as a template literal
    renders a small integer Number. *)
Definition Number_toString (n : nat) : jsstring :=
  js (NilEmpty.string_of_uint (Nat.to_uint n)).

(** Abrupt completion of a builtin or a property access. *)
Inductive JSError := SyntaxError | TypeError | IOError.

Inductive completion (A : Type) : Type :=
| Normal (a : A)
| Throw (e : JSError).
Arguments Throw {A} e.

Definition bind {A B} (c : completion A) (k : A -> completion B) : completion B :=
  match c with
  | Normal a => k a
  | Throw e => Throw e
  end.

(** [try { c } catch { h }]. *)
Definition try_catch {A} (c : completion A) (h : A) : A :=
  match c with
  | Normal a => a
  | Throw _ => h
  end.

(** Parsed JSON.  A number keeps its exact decimal value [m * 10^e]. *)
#[local] Unset Elimination Schemes.
Inductive json :=
| JNull
| JBool (b : bool)
| JNum (m e : Z)
| JStr (s : jsstring)
| JArr (items : list json)
| JObj (members : list (jsstring * json)).
#[local] Set Elimination Schemes.

(** A value that may be [undefined]. *)
Definition jsvalue := option json.

(** [typeof v === "string"] *)
Definition is_string (v : json) : bool :=
  match v with JStr _ => true | _ => false end.

(** Own data property of a parsed object; the last duplicate key wins. *)
Fixpoint lookup_member (k : jsstring) (ms : list (jsstring * json)) : jsvalue :=
  match ms with
  | [] => None
  | (k', v) :: rest =>
      match lookup_member k rest with
      | Some w => Some w
      | None => if str_eqb k k' then Some v else None
      end
  end.

(** [v.k] for a data key [k] that no prototype defines: reading a property
    of [undefined] or [null] throws, an object yields its member, any
    other value yields [undefined]. *)
Definition get_prop (v : jsvalue) (k : jsstring) : completion jsvalue :=
  match v with
  | None => Throw TypeError
  | Some JNull => Throw TypeError
  | Some (JObj ms) => Normal (lookup_member k ms)
  | Some _ => Normal None
  end.

(** The result of [Math.round]: NaN, an infinity, or an integer. *)
Inductive jsnum :=
| JNaN
| JInf (negative : bool)
| JInt (z : Z).

(** [Math.round x]: the integer nearest to [x], ties towards plus infinity,
    computed exactly from the binary expansion of the double. *)
Definition Math_round (x : float) : jsnum :=
  match Prim2SF x with
  | S754_nan => JNaN
  | S754_infinity s => JInf s
  | S754_zero _ => JInt 0
  | S754_finite s m e =>
      let v := if s then Z.neg m else Z.pos m in
      if 0 <=? e then JInt (v * 2 ^ e)
      else JInt ((2 * v + 2 ^ (- e)) / 2 ^ (- e + 1))
  end.

(** [Math.floor x] for a finite [x]. *)
Definition Math_floor (x : float) : jsnum :=
  match Prim2SF x with
  | S754_nan => JNaN
  | S754_infinity s => JInf s
  | S754_zero _ => JInt 0
  | S754_finite s m e =>
      let v := if s then Z.neg m else Z.pos m in
      if 0 <=? e then JInt (v * 2 ^ e) else JInt (v / 2 ^ (- e))
  end.

(** [x >= t] for an integer [t]. *)
Definition num_ge (x : jsnum) (t : Z) : bool :=
  match x with
  | JNaN => false
  | JInf negative => negb negative
  | JInt z => t <=? z
  end.

(** *** Regular expressions, as backtracking matchers

    A matcher reads a prefix of its input and passes what it read and the
    rest to its continuation; when the continuation fails it tries its
    next alternative, in the order of the language: a greedy quantifier
    the longest repetition first, a lazy one the shortest first. *)

Definition lit {A} (l s : jsstring) (k : jsstring -> option A) : option A :=
  match strip_prefix l s with
  | Some r => k r
  | None => None
  end.

(** [c*] for a character class [c]; [acc] is what was read, reversed. *)
Fixpoint star_greedy {A} (p : N -> bool) (s acc : jsstring)
    (k : jsstring -> jsstring -> option A) : option A :=
  match s with
  | c :: s' =>
      if p c then
        match star_greedy p s' (c :: acc) k with
        | Some x => Some x
        | None => k (rev acc) s
        end
      else k (rev acc) s
  | [] => k (rev acc) s
  end.

(** [c+] *)
Definition plus_greedy {A} (p : N -> bool) (s : jsstring)
    (k : jsstring -> jsstring -> option A) : option A :=
  match s with
  | c :: s' => if p c then star_greedy p s' [c] k else None
  | [] => None
  end.

(** [c*?] *)
Fixpoint star_lazy {A} (p : N -> bool) (s acc : jsstring)
    (k : jsstring -> jsstring -> option A) : option A :=
  match k (rev acc) s with
  | Some x => Some x
  | None =>
      match s with
      | c :: s' => if p c then star_lazy p s' (c :: acc) k else None
      | [] => None
      end
  end.

(** [s.match(re)] without the g flag: the match at the leftmost position
    that has one.  The matcher [m] yields its first group and the text
    after the match; the result is the matched text and the group. *)
Fixpoint exec (m : jsstring -> option (jsstring * jsstring)) (s : jsstring)
    : option (jsstring * jsstring) :=
  match m s with
  | Some (group, rest) => Some (firstn (List.length s - List.length rest) s, group)
  | None =>
      match s with
      | _ :: s' => exec m s'
      | [] => None
      end
  end.

(** [s.replace(pattern, "")] for a string pattern: the first occurrence. *)
Fixpoint remove_first (pattern s : jsstring) : jsstring :=
  match strip_prefix pattern s with
  | Some rest => rest
  | None =>
      match s with
      | c :: s' => c :: remove_first pattern s'
      | [] => []
      end
  end.

Definition is_digit (c : N) : bool := ((48 <=? c) && (c <=? 57))%N.

(** [parseInt(digits, 10)] on a run of decimal digits, as an integer (a
    Number holds it exactly below 2^53). *)
Definition parseInt (digits : jsstring) : Z :=
  fold_left (fun n c => 10 * n + Z.of_N (c - 48)) digits 0.

(** [Array.prototype.sort(comparefn)].  The sort is stable, and for a
    consistent comparator its result is determined: the elements in
    comparator order, equal ones in their original order.  [insert] puts
    [x] before the first element that must not precede it.  ([comparefn]
    returning NaN counts as 0; for an inconsistent comparator the language
    leaves the order to the implementation.) *)
Fixpoint insert {A} (comparefn : A -> A -> Z) (x : A) (l : list A) : list A :=
  match l with
  | [] => [x]
  | y :: l' => if 0 <? comparefn x y then y :: insert comparefn x l' else x :: l
  end.

Fixpoint Array_sort {A} (comparefn : A -> A -> Z) (l : list A) : list A :=
  match l with
  | [] => []
  | x :: l' => insert comparefn x (Array_sort comparefn l')
  end.

End JS.
Import JS.

(* ================================================================== *)
(** ** Files *)
(* ================================================================== *)

Module Fs.

(** A path is absent, a regular file, or something that cannot be read as
    a file (a directory). *)
Inductive node :=
| File (content : jsstring)
| Directory.

(** Paths (or, for one directory, file names) with what they hold, in
    enumeration order. *)
Definition filesystem := list (jsstring * node).

Fixpoint lookup (p : jsstring) (fs : filesystem) : option node :=
  match fs with
  | [] => None
  | (q, n) :: rest => if str_eqb p q then Some n else lookup p rest
  end.

Definition existsSync (fs : filesystem) (p : jsstring) : bool :=
  match lookup p fs with Some _ => true | None => false end.

Definition readFileSync (fs : filesystem) (p : jsstring) : completion jsstring :=
  match lookup p fs with
  | Some (File c) => Normal c
  | _ => Throw IOError
  end.

Fixpoint replace (p : jsstring) (n : node) (fs : filesystem) : filesystem :=
  match fs with
  | [] => [(p, n)]
  | (q, m) :: rest => if str_eqb p q then (q, n) :: rest else (q, m) :: replace p n rest
  end.

Definition mkdirSync (fs : filesystem) (p : jsstring) : completion filesystem :=
  match lookup p fs with
  | Some (File _) => Throw IOError
  | _ => Normal (replace p Directory fs)
  end.

Definition writeFileSync (fs : filesystem) (p c : jsstring) : completion filesystem :=
  match lookup p fs with
  | Some Directory => Throw IOError
  | _ => Normal (replace p (File c) fs)
  end.

(** [readdirSync]: the names, in the order the file system enumerates them. *)
Definition readdirSync (fs : filesystem) : list jsstring := map fst fs.

Fixpoint remove (p : jsstring) (fs : filesystem) : filesystem :=
  match fs with
  | [] => []
  | (q, m) :: rest => if str_eqb p q then rest else (q, m) :: remove p rest
  end.

End Fs.
Import Fs.

(* ================================================================== *)
(** ** Messages and session entries of the host *)
(* ================================================================== *)

Module Session.

(** Modelled from the spec: the aggregate token-usage figures of a model
    turn (the Usage type of the host), as the number of tokens they add
    up to. *)
Record Usage := { tokens : float }.

(** Modelled from the spec: the content blocks of a host message (type
    declarations of the host), by the tags the extensions test. *)
Inductive ContentBlock :=
| TextContent (text : jsstring)
| ThinkingContent (thinking : jsstring)
| ImageContent (data : jsstring)
| ToolCall (id name : jsstring).

(** [block.type] *)
Definition block_type (b : ContentBlock) : jsstring :=
  match b with
  | TextContent _ => js "text"
  | ThinkingContent _ => js "thinking"
  | ImageContent _ => js "image"
  | ToolCall _ _ => js "toolCall"
  end.

(** Modelled from the spec: the content of a host message, a string or an
    array of blocks. *)
Inductive MessageContent :=
| ContentString (s : jsstring)
| ContentBlocks (blocks : list ContentBlock).

(** Modelled from the spec: a message of the host (AgentMessage), with the
    fields the extensions read.  [content] is absent on the message kinds
    that have no such field, [usage] on those that report none. *)
Record AgentMessage := {
  role : jsstring;
  content : option MessageContent;
  usage : option Usage
}.

(** Modelled from the spec: an entry of the host's session log
    (SessionEntry), by its type tag; [D] is the payload of custom entries. *)
Inductive SessionEntry (D : Type) :=
| MessageEntry (message : AgentMessage)
| CustomEntry (customType : jsstring) (data : D)
| OtherEntry (type : jsstring).
Arguments MessageEntry {D} message.
Arguments OtherEntry {D} type.

(** Modelled from the spec: the kind of a notification, the second
    argument of [ctx.ui.notify]. *)
Inductive Level := info | warning | error.

End Session.
Import Session.

(* ================================================================== *)
(** ** What the host and the runtime provide *)
(* ================================================================== *)

(** Builtins whose code is not part of the repository.  [JSON_parse]
    throws on malformed text; [JSON_stringify v] is
    [JSON.stringify(v, null, 2)]; [Date_getTime v] is
    [new Date(v).getTime()], with [None] for NaN. *)
Class Runtime := {
  JSON_parse : jsstring -> completion json;
  JSON_stringify : json -> jsstring;
  path_join : jsstring -> jsstring -> jsstring;
  path_dirname : jsstring -> jsstring;
  Date_getTime : jsvalue -> option Z
}.

(** Functions of the coding-agent package that the extensions import;
    their code is not part of the sources at hand, so they are parameters. *)
Class CodingAgent := {
  LlmMessage : Type;
  convertToLlm : list AgentMessage -> list LlmMessage;
  serializeConversation : list LlmMessage -> jsstring;
  getLastAssistantUsage : forall D : Type, list (SessionEntry D) -> option Usage;
  calculateContextTokens : Usage -> float
}.

(* ================================================================== *)
(** ** A reference runtime, for running the components on concrete input *)
(* ================================================================== *)

Module Reference.

Definition is_json_ws (c : N) : bool :=
  ((c =? 9) || (c =? 10) || (c =? 13) || (c =? 32))%N.

Definition skip_ws (s : jsstring) : jsstring := dropWhile is_json_ws s.

Definition digit_val (c : N) : option Z :=
  if ((48 <=? c) && (c <=? 57))%N then Some (Z.of_N (c - 48)) else None.

Definition hex_val (c : N) : option N :=
  if ((48 <=? c) && (c <=? 57))%N then Some (c - 48)%N
  else if ((97 <=? c) && (c <=? 102))%N then Some (c - 87)%N
  else if ((65 <=? c) && (c <=? 70))%N then Some (c - 55)%N
  else None.

(** Reads a maximal run of digits: accumulated value, digits read, rest. *)
Fixpoint take_digits (s : jsstring) (acc n : Z) : Z * Z * jsstring :=
  match s with
  | c :: s' =>
      match digit_val c with
      | Some d => take_digits s' (10 * acc + d) (n + 1)
      | None => (acc, n, s)
      end
  | [] => (acc, n, s)
  end.

Definition simple_escape (e : N) : option N :=
  if (e =? 34)%N then Some 34%N
  else if (e =? 92)%N then Some 92%N
  else if (e =? 47)%N then Some 47%N
  else if (e =? 98)%N then Some 8%N
  else if (e =? 102)%N then Some 12%N
  else if (e =? 110)%N then Some 10%N
  else if (e =? 114)%N then Some 13%N
  else if (e =? 116)%N then Some 9%N
  else None.

(** The characters of a string literal after its opening quote. *)
Fixpoint string_body (s acc : jsstring) : option (jsstring * jsstring) :=
  match s with
  | [] => None
  | c :: s' =>
      if (c =? 34)%N then Some (rev acc, s')
      else if (c =? 92)%N then
        match s' with
        | [] => None
        | e :: s'' =>
            if (e =? 117)%N then
              match s'' with
              | h1 :: h2 :: h3 :: h4 :: s3 =>
                  match hex_val h1, hex_val h2, hex_val h3, hex_val h4 with
                  | Some a, Some b, Some c', Some d =>
                      string_body s3 ((((a * 16 + b) * 16 + c') * 16 + d)%N :: acc)
                  | _, _, _, _ => None
                  end
              | _ => None
              end
            else
              match simple_escape e with
              | Some ch => string_body s'' (ch :: acc)
              | None => None
              end
        end
      else if (c <? 32)%N then None
      else string_body s' (c :: acc)
  end.

Definition parse_number (s : jsstring) : option (json * jsstring) :=
  let (negative, s1) :=
    match s with
    | 45%N :: r => (true, r)
    | _ => (false, s)
    end in
  match s1 with
  | [] => None
  | c :: r =>
      match digit_val c with
      | None => None
      | Some d =>
          let '(ip, _, r1) := if (c =? 48)%N then (0, 1, r) else take_digits r d 1 in
          let frac :=
            match r1 with
            | 46%N :: f =>
                let '(m, k, r2) := take_digits f ip 0 in
                if 0 <? k then Some (m, k, r2) else None
            | _ => Some (ip, 0, r1)
            end in
          match frac with
          | None => None
          | Some (m, k, r2) =>
              let signed := if negative then - m else m in
              match r2 with
              | x :: r3 =>
                  if ((x =? 101) || (x =? 69))%N then
                    let (eneg, r4) :=
                      match r3 with
                      | 45%N :: t => (true, t)
                      | 43%N :: t => (false, t)
                      | _ => (false, r3)
                      end in
                    let '(ev, en, r5) := take_digits r4 0 0 in
                    if 0 <? en
                    then Some (JNum signed ((if eneg then - ev else ev) - k), r5)
                    else None
                  else Some (JNum signed (- k), r2)
              | [] => Some (JNum signed (- k), r2)
              end
          end
      end
  end.

Definition literal (word : string) (v : json) (s : jsstring) : option (json * jsstring) :=
  match strip_prefix (js word) s with
  | Some rest => Some (v, rest)
  | None => None
  end.

Fixpoint parse_value (fuel : nat) (s : jsstring) : option (json * jsstring) :=
  match fuel with
  | O => None
  | S f =>
      match skip_ws s with
      | [] => None
      | c :: r =>
          if (c =? 110)%N then literal "null" JNull (c :: r)
          else if (c =? 116)%N then literal "true" (JBool true) (c :: r)
          else if (c =? 102)%N then literal "false" (JBool false) (c :: r)
          else if (c =? 34)%N then
            match string_body r [] with
            | Some (str, rest) => Some (JStr str, rest)
            | None => None
            end
          else if (c =? 91)%N then
            match skip_ws r with
            | 93%N :: r' => Some (JArr [], r')
            | _ => parse_elements f r []
            end
          else if (c =? 123)%N then
            match skip_ws r with
            | 125%N :: r' => Some (JObj [], r')
            | _ => parse_members f r []
            end
          else parse_number (c :: r)
      end
  end
with parse_elements (fuel : nat) (s : jsstring) (acc : list json) : option (json * jsstring) :=
  match fuel with
  | O => None
  | S f =>
      match parse_value f s with
      | Some (v, r) =>
          match skip_ws r with
          | 44%N :: r' => parse_elements f r' (v :: acc)
          | 93%N :: r' => Some (JArr (rev (v :: acc)), r')
          | _ => None
          end
      | None => None
      end
  end
with parse_members (fuel : nat) (s : jsstring) (acc : list (jsstring * json)) : option (json * jsstring) :=
  match fuel with
  | O => None
  | S f =>
      match skip_ws s with
      | 34%N :: r =>
          match string_body r [] with
          | Some (k, r1) =>
              match skip_ws r1 with
              | 58%N :: r2 =>
                  match parse_value f r2 with
                  | Some (v, r3) =>
                      match skip_ws r3 with
                      | 44%N :: r4 => parse_members f r4 ((k, v) :: acc)
                      | 125%N :: r4 => Some (JObj (rev ((k, v) :: acc)), r4)
                      | _ => None
                      end
                  | None => None
                  end
              | _ => None
              end
          | None => None
          end
      | _ => None
      end
  end.

(** [JSON.parse text]: one value between optional whitespace. *)
Definition json_parse (text : jsstring) : completion json :=
  match parse_value (2 * List.length text + 2) text with
  | Some (v, rest) =>
      match skip_ws rest with
      | [] => Normal v
      | _ :: _ => Throw SyntaxError
      end
  | None => Throw SyntaxError
  end.

Definition hex_digit (d : N) : N := if (d <? 10)%N then (48 + d)%N else (87 + d)%N.

Definition unicode_escape (c : N) : jsstring :=
  js "\u" ++ [hex_digit (c / 4096 mod 16); hex_digit (c / 256 mod 16);
              hex_digit (c / 16 mod 16); hex_digit (c mod 16)]%N.

Definition is_lead (c : N) : bool := ((55296 <=? c) && (c <=? 56319))%N.
Definition is_trail (c : N) : bool := ((56320 <=? c) && (c <=? 57343))%N.

(** The body of QuoteJSONString. *)
Fixpoint quote_body (s : jsstring) : jsstring :=
  match s with
  | [] => []
  | c :: s' =>
      if (c =? 8)%N then js "\b" ++ quote_body s'
      else if (c =? 9)%N then js "\t" ++ quote_body s'
      else if (c =? 10)%N then js "\n" ++ quote_body s'
      else if (c =? 12)%N then js "\f" ++ quote_body s'
      else if (c =? 13)%N then js "\r" ++ quote_body s'
      else if (c =? 34)%N then [92; 34]%N ++ quote_body s'
      else if (c =? 92)%N then [92; 92]%N ++ quote_body s'
      else if (c <? 32)%N then unicode_escape c ++ quote_body s'
      else if is_lead c then
        match s' with
        | d :: s'' => if is_trail d then c :: d :: quote_body s''
                      else unicode_escape c ++ quote_body s'
        | [] => unicode_escape c
        end
      else if is_trail c then unicode_escape c ++ quote_body s'
      else c :: quote_body s'
  end.

Definition quote (s : jsstring) : jsstring := [34%N] ++ quote_body s ++ [34%N].

Definition spaces (n : nat) : jsstring := repeat 32%N n.

(** Decimal text of the number [m * 10^e]; integers print as integers. *)
Definition number_text (m e : Z) : jsstring :=
  let digits z := js (NilEmpty.string_of_int (Z.to_int z)) in
  if 0 <=? e then digits (m * 10 ^ e)
  else digits m ++ js "e" ++ digits e.

(** [JSON.stringify(v, null, 2)], at the given indentation. *)
Fixpoint stringify (indent : nat) (v : json) : jsstring :=
  match v with
  | JNull => js "null"
  | JBool true => js "true"
  | JBool false => js "false"
  | JNum m e => number_text m e
  | JStr s => quote s
  | JArr [] => js "[]"
  | JArr items =>
      js "[" ++ [10%N]
      ++ join ([44; 10]%N)
           (map (fun x => spaces (indent + 2) ++ stringify (indent + 2) x) items)
      ++ [10%N] ++ spaces indent ++ js "]"
  | JObj [] => js "{}"
  | JObj members =>
      js "{" ++ [10%N]
      ++ join ([44; 10]%N)
           (map (fun kv => spaces (indent + 2) ++ quote (fst kv) ++ js ": "
                           ++ stringify (indent + 2) (snd kv)) members)
      ++ [10%N] ++ spaces indent ++ js "}"
  end.

(** [path.join] and [path.dirname] on POSIX paths that need no
    normalisation. *)
Definition posix_join (a b : jsstring) : jsstring := a ++ js "/" ++ b.

Fixpoint drop_last_segment (r : jsstring) : jsstring :=
  match r with
  | [] => []
  | c :: r' => if (c =? 47)%N then r' else drop_last_segment r'
  end.

Definition posix_dirname (p : jsstring) : jsstring :=
  if existsb (N.eqb 47) p then rev (drop_last_segment (rev p)) else js ".".

(** Days from 1970-01-01 to the civil date y-m-d. *)
Definition days_from_civil (y m d : Z) : Z :=
  let y' := if m <=? 2 then y - 1 else y in
  let era := y' / 400 in
  let yoe := y' - era * 400 in
  let doy := (153 * (if 2 <? m then m - 3 else m + 9) + 2) / 5 + d - 1 in
  let doe := yoe * 365 + yoe / 4 - yoe / 100 + doy in
  era * 146097 + doe - 719468.

Definition days_in_month (y m : Z) : Z :=
  if m =? 2 then
    if ((y mod 4 =? 0) && negb (y mod 100 =? 0)) || (y mod 400 =? 0) then 29 else 28
  else if (m =? 4) || (m =? 6) || (m =? 9) || (m =? 11) then 30 else 31.

Fixpoint fixed_digits (n : nat) (s : jsstring) (acc : Z) : option (Z * jsstring) :=
  match n with
  | O => Some (acc, s)
  | S n' =>
      match s with
      | c :: s' =>
          match digit_val c with
          | Some d => fixed_digits n' s' (10 * acc + d)
          | None => None
          end
      | [] => None
      end
  end.

Definition expect (c : N) (s : jsstring) : option jsstring :=
  match s with
  | x :: s' => if (x =? c)%N then Some s' else None
  | [] => None
  end.

Definition obind {A B} (o : option A) (k : A -> option B) : option B :=
  match o with Some a => k a | None => None end.

(** The time value of a string in the format of [Date.prototype.toISOString],
    YYYY-MM-DDTHH:mm:ss.sssZ. *)
Definition iso_time (s : jsstring) : option Z :=
  obind (fixed_digits 4 s 0) (fun '(y, s) =>
  obind (expect 45 s) (fun s =>
  obind (fixed_digits 2 s 0) (fun '(mo, s) =>
  obind (expect 45 s) (fun s =>
  obind (fixed_digits 2 s 0) (fun '(d, s) =>
  obind (expect 84 s) (fun s =>
  obind (fixed_digits 2 s 0) (fun '(h, s) =>
  obind (expect 58 s) (fun s =>
  obind (fixed_digits 2 s 0) (fun '(mi, s) =>
  obind (expect 58 s) (fun s =>
  obind (fixed_digits 2 s 0) (fun '(sec, s) =>
  obind (expect 46 s) (fun s =>
  obind (fixed_digits 3 s 0) (fun '(ms, s) =>
  obind (expect 90 s) (fun s =>
  match s with
  | _ :: _ => None
  | [] =>
      if (1 <=? mo) && (mo <=? 12) && (1 <=? d) && (d <=? days_in_month y mo)
         && (h <=? 23) && (mi <=? 59) && (sec <=? 59)
      then Some ((((days_from_civil y mo d * 24 + h) * 60 + mi) * 60 + sec) * 1000 + ms)
      else None
  end)))))))))))))).

(** [new Date(v).getTime()] for the timestamps the checkpoint extension
    writes (ISO strings); NaN for [undefined] and for strings in another
    shape. *)
Definition date_getTime (v : jsvalue) : option Z :=
  match v with
  | Some (JStr s) => iso_time s
  | _ => None
  end.

#[export] Instance runtime : Runtime := {|
  JSON_parse := json_parse;
  JSON_stringify := stringify 0;
  path_join := posix_join;
  path_dirname := posix_dirname;
  Date_getTime := date_getTime
|}.

(** Modelled from the spec: a stand-in for the functions of the
    coding-agent package, to run examples.  The transcript is the text of
    the user and assistant messages; the usage figures are those of the
    most recent assistant message that reports some. *)
Definition message_text (m : AgentMessage) : jsstring :=
  match content m with
  | Some (ContentString t) => t
  | Some (ContentBlocks bs) =>
      join [10%N] (flat_map (fun b => match b with TextContent t => [t] | _ => [] end) bs)
  | None => []
  end.

Definition conversational (m : AgentMessage) : bool :=
  str_eqb (role m) (js "user") || str_eqb (role m) (js "assistant").

Definition transcript (ms : list AgentMessage) : jsstring :=
  join [10%N] (map (fun m => role m ++ js ": " ++ message_text m) ms).

Definition entry_usage {D} (e : SessionEntry D) : option Usage :=
  match e with
  | MessageEntry m => if str_eqb (role m) (js "assistant") then usage m else None
  | _ => None
  end.

Fixpoint last_usage {D} (es : list (SessionEntry D)) : option Usage :=
  match es with
  | [] => None
  | e :: rest =>
      match last_usage rest with
      | Some u => Some u
      | None => entry_usage e
      end
  end.

#[export] Instance agent : CodingAgent := {|
  LlmMessage := AgentMessage;
  convertToLlm := filter conversational;
  serializeConversation := transcript;
  getLastAssistantUsage := @last_usage;
  calculateContextTokens := tokens
|}.

End Reference.

(* ================================================================== *)
(** ** Input history (input-history.ts) *)
(* ================================================================== *)

Module InputHistoryManager.

Definition MAX_HISTORY_SIZE : nat := 150.

Record t := {
  historyPath : jsstring;
  history : list jsstring;
  persist : bool
}.

Definition set_history (m : t) (h : list jsstring) : t :=
  {| historyPath := historyPath m; history := h; persist := persist m |}.

Section WithRuntime.
Context {R : Runtime}.

(** [data.filter(item => typeof item === "string").slice(0, MAX_HISTORY_SIZE)] *)
Definition string_items (data : list json) : list jsstring :=
  firstn MAX_HISTORY_SIZE
    (map (fun v => match v with JStr s => s | _ => [] end) (filter is_string data)).

Definition load (fs : filesystem) (m : t) : t :=
  if negb (persist m) || negb (existsSync fs (historyPath m)) then m
  else
    try_catch
      (bind (readFileSync fs (historyPath m)) (fun content =>
       bind (JSON_parse content) (fun data =>
       Normal match data with
              | JArr items => set_history m (string_items items)
              | _ => m
              end)))
      (set_history m []).

(** An error is swallowed; what was done before it stays done. *)
Definition save (m : t) (fs : filesystem) : filesystem :=
  if negb (persist m) then fs
  else
    let dir := path_dirname (historyPath m) in
    match (if negb (existsSync fs dir) then mkdirSync fs dir else Normal fs) with
    | Throw _ => fs
    | Normal fs1 =>
        try_catch
          (writeFileSync fs1 (historyPath m)
             (JSON_stringify (JArr (map JStr (history m)))))
          fs1
    end.

(** The private constructor: the fields, then [this.load()]. *)
Definition new (fs : filesystem) (path : jsstring) (p : bool) : t :=
  load fs {| historyPath := path; history := []; persist := p |}.

Definition create (fs : filesystem) (agentDir : jsstring) : t :=
  new fs (path_join agentDir (js "input-history.json")) true.

Definition inMemory (fs : filesystem) : t := new fs [] false.

Definition add (text : jsstring) (s : t * filesystem) : t * filesystem :=
  let (m, fs) := s in
  let trimmed := trim text in
  if negb (truthy trimmed) then s
  else if (0 <? List.length (history m))%nat
          && match history m with h0 :: _ => str_eqb h0 trimmed | [] => false end
  then s
  else
    let unshifted := trimmed :: history m in
    let limited :=
      if (MAX_HISTORY_SIZE <? List.length unshifted)%nat
      then firstn MAX_HISTORY_SIZE unshifted
      else unshifted in
    let m' := set_history m limited in
    (m', save m' fs).

Definition getAll (m : t) : list jsstring := history m.

Definition get (m : t) (index : nat) : option jsstring := nth_error (history m) index.

Definition length (m : t) : nat := List.length (history m).

Definition clear (s : t * filesystem) : t * filesystem :=
  let m' := set_history (fst s) [] in
  (m', save m' (snd s)).

End WithRuntime.

End InputHistoryManager.


(* ================================================================== *)
(** ** Checkpoint extension *)
(* ================================================================== *)

Module Checkpoint.

(** Characters for short ids (no ambiguous ones). *)
Definition ID_CHARS : jsstring := js "abcdefghjkmnpqrstuvwxyz23456789".

(** [ID_CHARS[Math.floor(r * ID_CHARS.length)]], appended to a string: an
    index outside the string yields [undefined], which appends as text.
    The length of [ID_CHARS] is 31. *)
Definition pick (r : float) : jsstring :=
  match Math_floor (PrimFloat.mul r 31) with
  | JInt i =>
      if i <? 0 then js "undefined"
      else match nth_error ID_CHARS (Z.to_nat i) with
           | Some c => [c]
           | None => js "undefined"
           end
  | _ => js "undefined"
  end.

(** [generateShortId]; [random i] is the result of the i-th call of
    [Math.random]. *)
Definition generateShortId (random : nat -> float) : jsstring :=
  flat_map (fun i => pick (random i)) (seq 0 6).

(** The checkpoint directory: absent, or its files by name. *)
Definition store := option filesystem.

Definition files_of (st : store) : filesystem :=
  match st with Some fs => fs | None => [] end.

Definition ensureCheckpointsDir (st : store) : store := Some (files_of st).

Definition is_safe (c : N) : bool :=
  ((97 <=? c) && (c <=? 122) || (65 <=? c) && (c <=? 90) || (48 <=? c) && (c <=? 57)
   || (c =? 95) || (c =? 45))%N.

(** [id.replace(/[^a-zA-Z0-9_-]/g, "_")] *)
Definition safeId (id : jsstring) : jsstring :=
  map (fun c => if is_safe c then c else 95%N) id.

(** The name of the checkpoint's file inside the checkpoint directory. *)
Definition getCheckpointPath (id : jsstring) : jsstring := safeId id ++ js ".json".

(** Summary statistics of a checkpoint. *)
Record Stats := {
  messageCount : Z;
  userMessages : Z;
  assistantMessages : Z;
  toolCalls : Z
}.

Record Checkpoint := {
  id : jsstring;
  description : option jsstring;
  cwd : jsstring;
  timestamp : jsstring;
  serializedContext : jsstring;
  stats : Stats
}.

(** The object that [JSON.stringify] sees; an undefined member is left out. *)
Definition to_json (c : Checkpoint) : json :=
  JObj ([(js "id", JStr (id c))]
        ++ match description c with
           | Some d => [(js "description", JStr d)]
           | None => []
           end
        ++ [(js "cwd", JStr (cwd c));
            (js "timestamp", JStr (timestamp c));
            (js "serializedContext", JStr (serializedContext c));
            (js "stats", JObj [(js "messageCount", JNum (messageCount (stats c)) 0);
                               (js "userMessages", JNum (userMessages (stats c)) 0);
                               (js "assistantMessages", JNum (assistantMessages (stats c)) 0);
                               (js "toolCalls", JNum (toolCalls (stats c)) 0)])]).

(** What [listCheckpoints] returns for one file. *)
Record Summary := {
  s_id : jsvalue;
  s_timestamp : jsvalue;
  s_description : jsvalue;
  s_messageCount : jsvalue
}.

(** Truthiness of a parsed value. *)
Definition json_truthy (v : json) : bool :=
  match v with
  | JNull => false
  | JBool b => b
  | JNum m _ => negb (m =? 0)
  | JStr s => truthy s
  | JArr _ | JObj _ => true
  end.

Section WithRuntime.
Context {R : Runtime} {H : CodingAgent}.

(** [loadCheckpoint]; the result is the parsed file, or [null]. *)
Definition loadCheckpoint (st : store) (ident : jsstring) : completion json :=
  let path := getCheckpointPath ident in
  if negb (existsSync (files_of st) path) then Normal JNull
  else
    Normal (try_catch
              (bind (readFileSync (files_of st) path) (fun content =>
               JSON_parse content))
              JNull).

Definition saveCheckpoint (st : store) (c : Checkpoint) : completion store :=
  let st1 := ensureCheckpointsDir st in
  let path := getCheckpointPath (id c) in
  bind (writeFileSync (files_of st1) path (JSON_stringify (to_json c)))
       (fun fs => Normal (Some fs)).

(** The body of the [try] in [listCheckpoints], for one file name. *)
Definition readSummary (fs : filesystem) (file : jsstring) : completion Summary :=
  bind (readFileSync fs file) (fun content =>
  bind (JSON_parse content) (fun checkpoint =>
  bind (get_prop (Some checkpoint) (js "id")) (fun i =>
  bind (get_prop (Some checkpoint) (js "timestamp")) (fun t =>
  bind (get_prop (Some checkpoint) (js "description")) (fun d =>
  bind (get_prop (Some checkpoint) (js "stats")) (fun s =>
  bind (get_prop s (js "messageCount")) (fun n =>
  Normal {| s_id := i; s_timestamp := t; s_description := d;
            s_messageCount := n |}))))))).

(** The loop of [listCheckpoints]: a file whose [try] body throws is skipped. *)
Fixpoint collect (fs : filesystem) (files : list jsstring) : list Summary :=
  match files with
  | [] => []
  | file :: rest =>
      match readSummary fs file with
      | Normal s => s :: collect fs rest
      | Throw _ => collect fs rest
      end
  end.

(** [new Date(b.timestamp).getTime() - new Date(a.timestamp).getTime()],
    as the sort reads it: its sign, with NaN read as 0. *)
Definition newest_first (a b : Summary) : Z :=
  match Date_getTime (s_timestamp b), Date_getTime (s_timestamp a) with
  | Some tb, Some ta => tb - ta
  | _, _ => 0
  end.

(** [readdirSync(CHECKPOINTS_DIR).filter(f => f.endsWith(".json"))] *)
Definition json_files (fs : filesystem) : list jsstring :=
  filter (fun f => endsWith f (js ".json")) (readdirSync fs).

Definition listCheckpoints (st : store) : store * list Summary :=
  let st1 := ensureCheckpointsDir st in
  let files := json_files (files_of st1) in
  (st1, Array_sort newest_first (collect (files_of st1) files)).

(** [rmSync path] removes a file and throws on a directory. *)
Definition rmSync (fs : filesystem) (path : jsstring) : completion filesystem :=
  match lookup path fs with
  | Some (File _) => Normal (remove path fs)
  | _ => Throw IOError
  end.

Definition deleteCheckpoint (st : store) (ident : jsstring) : completion (store * bool) :=
  let path := getCheckpointPath ident in
  if negb (existsSync (files_of st) path) then Normal (st, false)
  else bind (rmSync (files_of st) path) (fun fs => Normal (Some fs, true)).

(** *** The extension: its two variables, its handlers *)

Record ExtState := {
  restoredCheckpoint : json;
  pendingRestore : option jsstring
}.

(** The notifications of the extension; the fields are the values the
    message text interpolates. *)
Inductive Notice :=
| WillBeRestored (restoreId : jsstring)
| NotFound (ident : jsstring)
| NoMessages
| Saved (checkpointId : jsstring) (messages toolCalls : Z)
| UsageLoad
| Queued (ident : jsstring)
| NoCheckpoints
| Checkpoints (lines : list Summary)
| UsageDelete
| Deleted (ident : jsstring)
| UsageShow
| Preview (ident created dir messages users assistants tools descr : jsvalue)
          (preview : json) (truncated : bool)
| UsageHelp.

Inductive Effect :=
| ui_notify (message : Notice) (level : Level).

(** Modelled from the spec: the context of a command handler, by what the
    save case reads from it: the current branch of the session manager,
    and the working directory. *)
Record CommandContext (D : Type) := {
  getBranch : list (SessionEntry D);
  ctx_cwd : jsstring
}.

(** What a run of the [save] case reads from its environment:
    [Math.random] and [new Date().toISOString()]. *)
Record Environment := {
  random : nat -> float;
  now_iso : jsstring
}.

Definition is_message_entry {D} (e : SessionEntry D) : bool :=
  match e with
  | MessageEntry _ => true
  | _ => false
  end.

(** [branch.filter(e => e.type === "message")] *)
Definition messageEntries {D} (branch : list (SessionEntry D)) : list (SessionEntry D) :=
  filter is_message_entry branch.

(** [messageEntries.map(e => e.message)] *)
Fixpoint messages_of {D} (entries : list (SessionEntry D)) : list AgentMessage :=
  match entries with
  | [] => []
  | MessageEntry m :: rest => m :: messages_of rest
  | _ :: rest => messages_of rest
  end.

Definition count_role (r : string) (ms : list AgentMessage) : Z :=
  Z.of_nat (List.length (filter (fun m => str_eqb (role m) (js r)) ms)).

Definition tool_calls_of (m : AgentMessage) : Z :=
  if str_eqb (role m) (js "assistant") then
    match content m with
    | Some (ContentBlocks blocks) =>
        Z.of_nat (List.length
                    (filter (fun b => str_eqb (block_type b) (js "toolCall")) blocks))
    | _ => 0
    end
  else 0.

Definition count_tool_calls (ms : list AgentMessage) : Z :=
  fold_left (fun n m => n + tool_calls_of m) ms 0.

(** [v.slice(0, 500)] with [v.length > 500]: strings and arrays have the
    method, [undefined] and [null] have no properties, and on any other
    value [slice] is not a function. *)
Definition slice_500 (v : jsvalue) : completion (json * bool) :=
  match v with
  | Some (JStr t) => Normal (JStr (firstn 500 t), (500 <? List.length t)%nat)
  | Some (JArr l) => Normal (JArr (firstn 500 l), (500 <? List.length l)%nat)
  | _ => Throw TypeError
  end.

Definition result : Type := store * ExtState * list Effect.

Definition checkpoint_save {D} (rest : jsstring) (ctx : CommandContext D)
    (env : Environment) (st : store) (x : ExtState) : completion result :=
  let checkpointId := generateShortId (random env) in
  let descr := if truthy rest then Some rest else None in
  let entries := messageEntries (getBranch ctx) in
  if (List.length entries =? 0)%nat then
    Normal (st, x, [ui_notify NoMessages warning])
  else
    let messages := messages_of entries in
    let serialized := serializeConversation (convertToLlm messages) in
    let calls := count_tool_calls messages in
    let checkpoint :=
      {| id := checkpointId;
         description := descr;
         cwd := ctx_cwd ctx;
         timestamp := now_iso env;
         serializedContext := serialized;
         stats := {| messageCount := Z.of_nat (List.length entries);
                     userMessages := count_role "user" messages;
                     assistantMessages := count_role "assistant" messages;
                     toolCalls := calls |} |} in
    bind (saveCheckpoint st checkpoint) (fun st' =>
    Normal (st', x,
            [ui_notify (Saved checkpointId (Z.of_nat (List.length entries)) calls) info])).

Definition checkpoint_load (ident : jsstring) (st : store) (x : ExtState)
    : completion result :=
  if negb (truthy ident) then Normal (st, x, [ui_notify UsageLoad warning])
  else
    bind (loadCheckpoint st ident) (fun checkpoint =>
    if negb (json_truthy checkpoint) then
      Normal (st, x, [ui_notify (NotFound ident) error])
    else
      Normal (st,
              {| restoredCheckpoint := restoredCheckpoint x;
                 pendingRestore := Some ident |},
              [ui_notify (Queued ident) info])).

Definition checkpoint_list (st : store) (x : ExtState) : completion result :=
  let (st', checkpoints) := listCheckpoints st in
  if (List.length checkpoints =? 0)%nat
  then Normal (st', x, [ui_notify NoCheckpoints info])
  else Normal (st', x, [ui_notify (Checkpoints checkpoints) info]).

Definition checkpoint_delete (ident : jsstring) (st : store) (x : ExtState)
    : completion result :=
  if negb (truthy ident) then Normal (st, x, [ui_notify UsageDelete warning])
  else
    bind (deleteCheckpoint st ident) (fun '(st', deleted) =>
    if deleted then Normal (st', x, [ui_notify (Deleted ident) info])
    else Normal (st', x, [ui_notify (NotFound ident) error])).

Definition checkpoint_show (ident : jsstring) (st : store) (x : ExtState)
    : completion result :=
  if negb (truthy ident) then Normal (st, x, [ui_notify UsageShow warning])
  else
    bind (loadCheckpoint st ident) (fun checkpoint =>
    if negb (json_truthy checkpoint) then
      Normal (st, x, [ui_notify (NotFound ident) error])
    else
      let c := Some checkpoint in
      bind (get_prop c (js "serializedContext")) (fun sc =>
      bind (slice_500 sc) (fun '(preview, truncated) =>
      bind (get_prop c (js "stats")) (fun s =>
      bind (get_prop c (js "id")) (fun i =>
      bind (get_prop c (js "timestamp")) (fun t =>
      bind (get_prop c (js "cwd")) (fun d =>
      bind (get_prop s (js "messageCount")) (fun n =>
      bind (get_prop s (js "userMessages")) (fun u =>
      bind (get_prop s (js "assistantMessages")) (fun a =>
      bind (get_prop s (js "toolCalls")) (fun k =>
      bind (get_prop c (js "description")) (fun descr =>
      Normal (st, x,
              [ui_notify (Preview i t d n u a k descr preview truncated) info]))))))))))))).

(** The handler of the [/checkpoint] command. *)
Definition checkpoint_command {D} (args : jsstring) (ctx : CommandContext D)
    (env : Environment) (st : store) (x : ExtState) : completion result :=
  let parts := split_ws (trim args) in
  let subcommand := toLowerCase (hd [] parts) in
  let rest := join (js " ") (tl parts) in
  if str_eqb subcommand (js "save") then checkpoint_save rest ctx env st x
  else if str_eqb subcommand (js "load") then checkpoint_load rest st x
  else if str_eqb subcommand (js "list") then checkpoint_list st x
  else if str_eqb subcommand (js "delete") then checkpoint_delete rest st x
  else if str_eqb subcommand (js "show") then checkpoint_show rest st x
  else Normal (st, x, [ui_notify UsageHelp info]).

(** The [session_start] handler; [restoreId] is the [--restore] flag. *)
Definition session_start (restoreId : option jsstring) (st : store) (x : ExtState)
    : completion (ExtState * list Effect) :=
  match restoreId with
  | Some r =>
      if truthy r then
        bind (loadCheckpoint st r) (fun checkpoint =>
        if json_truthy checkpoint then
          Normal ({| restoredCheckpoint := checkpoint;
                     pendingRestore := pendingRestore x |},
                  [ui_notify (WillBeRestored r) info])
        else Normal (x, [ui_notify (NotFound r) error]))
      else Normal (x, [])
  | None => Normal (x, [])
  end.

(** The [before_agent_start] handler: the state after it, and the
    checkpoint whose context is appended to the system prompt, if any. *)
Definition before_agent_start (st : store) (x : ExtState)
    : completion (ExtState * option json) :=
  bind (if truthy_opt (pendingRestore x) then
          match pendingRestore x with
          | Some p =>
              bind (loadCheckpoint st p) (fun checkpoint =>
              Normal {| restoredCheckpoint :=
                          if json_truthy checkpoint then checkpoint
                          else restoredCheckpoint x;
                        pendingRestore := None |})
          | None => Normal x
          end
        else Normal x) (fun x1 =>
  if negb (json_truthy (restoredCheckpoint x1)) then Normal (x1, None)
  else
    Normal ({| restoredCheckpoint := JNull; pendingRestore := pendingRestore x1 |},
            Some (restoredCheckpoint x1))).

End WithRuntime.

End Checkpoint.

(* ================================================================== *)
(** ** Ralph Wiggum extension *)
(* ================================================================== *)

Module Ralph.

Record RalphState := {
  active : bool;
  prompt : jsstring;
  iteration : Z;
  totalIterations : Z;
  maxIterations : Z;
  completionPromise : option jsstring;
  planFile : option jsstring;
  contextThreshold : Z;
  startedAt : Z;
  sessionCount : Z;
  pendingHandoff : bool
}.

Definition isAssistantMessage (m : AgentMessage) : bool :=
  str_eqb (role m) (js "assistant")
  && match content m with Some (ContentBlocks _) => true | _ => false end.

Definition block_text (b : ContentBlock) : option jsstring :=
  match b with
  | TextContent t => Some t
  | _ => None
  end.

Fixpoint text_blocks (blocks : list ContentBlock) : list jsstring :=
  match blocks with
  | [] => []
  | b :: rest =>
      match block_text b with
      | Some t => t :: text_blocks rest
      | None => text_blocks rest
      end
  end.

Definition extractTextContent (m : AgentMessage) : jsstring :=
  match content m with
  | Some (ContentBlocks blocks) => join [10%N] (text_blocks blocks)
  | _ => []
  end.

Definition any_char (c : N) : bool := true.

Definition open_tag : jsstring := js "<promise>".
Definition close_tag : jsstring := js "</promise>".

(** [<promise>\s*(.*?)\s*<\/promise>] with the s flag, at the start of
    the input: the group, and the text after the match. *)
Definition promise_here (s : jsstring) : option (jsstring * jsstring) :=
  lit open_tag s (fun r1 =>
  star_greedy is_ws r1 [] (fun _ r2 =>
  star_lazy any_char r2 [] (fun group r3 =>
  star_greedy is_ws r3 [] (fun _ r4 =>
  lit close_tag r4 (fun r5 => Some (group, r5)))))).

Definition extractPromiseText (text : jsstring) : option jsstring :=
  match exec promise_here text with
  | Some (_, group) => Some (trim group)
  | None => None
  end.

Record ParsedArgs := {
  p_prompt : jsstring;
  p_maxIterations : Z;
  p_completionPromise : option jsstring;
  p_planFile : option jsstring;
  p_contextThreshold : Z;
  p_error : option jsstring
}.

Definition non_ws (c : N) : bool := negb (is_ws c).

(** [--flag\s+(\d+)] *)
Definition flag_number (flag : string) (s : jsstring) : option (jsstring * jsstring) :=
  lit (js flag) s (fun r1 =>
  plus_greedy is_ws r1 (fun _ r2 =>
  plus_greedy is_digit r2 (fun group r3 => Some (group, r3)))).

(** [--flag\s+(\S+)] *)
Definition flag_word (flag : string) (s : jsstring) : option (jsstring * jsstring) :=
  lit (js flag) s (fun r1 =>
  plus_greedy is_ws r1 (fun _ r2 =>
  plus_greedy non_ws r2 (fun group r3 => Some (group, r3)))).

(** [--flag\s+Q([^Q]+)Q] for a quote character Q. *)
Definition flag_quoted (flag : string) (q : N) (s : jsstring)
    : option (jsstring * jsstring) :=
  lit (js flag) s (fun r1 =>
  plus_greedy is_ws r1 (fun _ r2 =>
  lit [q] r2 (fun r3 =>
  plus_greedy (fun c => negb (c =? q)%N) r3 (fun group r4 =>
  lit [q] r4 (fun r5 => Some (group, r5)))))).

(** [--\S+] *)
Definition any_flag (s : jsstring) : option (jsstring * jsstring) :=
  lit (js "--") s (fun r1 =>
  plus_greedy non_ws r1 (fun _ r2 => Some ([], r2))).

Definition parseArgs (args : jsstring) : ParsedArgs :=
  let remaining := args in
  let '(maxIter, remaining) :=
    match exec (flag_number "--max-iterations") remaining with
    | Some (whole, g) => (parseInt g, remove_first whole remaining)
    | None => (0, remaining)
    end in
  let '(threshold, remaining) :=
    match exec (flag_number "--context-threshold") remaining with
    | Some (whole, g) => (Z.min 95 (Z.max 10 (parseInt g)), remove_first whole remaining)
    | None => (70, remaining)
    end in
  let '(plan, remaining) :=
    match exec (flag_word "--plan-file") remaining with
    | Some (whole, g) => (Some g, remove_first whole remaining)
    | None => (None, remaining)
    end in
  let promiseMatchDouble := exec (flag_quoted "--completion-promise" 34) remaining in
  let promiseMatchSingle := exec (flag_quoted "--completion-promise" 39) remaining in
  let promiseMatchUnquoted := exec (flag_word "--completion-promise") remaining in
  let '(promise, remaining) :=
    match promiseMatchDouble, promiseMatchSingle, promiseMatchUnquoted with
    | Some (whole, g), _, _ => (Some g, remove_first whole remaining)
    | None, Some (whole, g), _ => (Some g, remove_first whole remaining)
    | None, None, Some (whole, g) =>
        if negb (startsWith g (js "-")) then (Some g, remove_first whole remaining)
        else (None, remaining)
    | None, None, None => (None, remaining)
    end in
  match exec any_flag remaining with
  | Some (whole, _) =>
      {| p_prompt := [];
         p_maxIterations := 0;
         p_completionPromise := None;
         p_planFile := None;
         p_contextThreshold := 70;
         p_error := Some (js "Unknown option: " ++ whole) |}
  | None =>
      {| p_prompt := trim remaining;
         p_maxIterations := maxIter;
         p_completionPromise := promise;
         p_planFile := plan;
         p_contextThreshold := threshold;
         p_error := None |}
  end.

(** Modelled from the spec: the active model of the host, by its
    context-window size. *)
Record Model := { contextWindow : float }.

(** Modelled from the spec: the context a handler receives
    (ExtensionContext), by what the extension reads from it: the model,
    and the entries of the session manager. *)
Record ExtensionContext := {
  model : option Model;
  getEntries : list (SessionEntry (option RalphState))
}.

Section WithHost.
Context {H : CodingAgent}.

Definition getContextUsagePercent (ctx : ExtensionContext) : option jsnum :=
  match model ctx with
  | None => None
  | Some m =>
      let entries := getEntries ctx in
      match getLastAssistantUsage entries with
      | None => None
      | Some usage =>
          let contextTokens := calculateContextTokens usage in
          let contextWindow := contextWindow m in
          Some (Math_round (PrimFloat.mul (PrimFloat.div contextTokens contextWindow) 100))
      end
  end.

(** The status line: the fields its text shows. *)
Record StatusLine := {
  status_total : Z;
  status_max : option Z;
  status_sessions : option Z;
  status_context : option jsnum
}.

(** The notifications; the fields are the values the text interpolates. *)
Inductive Notice :=
| Help
| AlreadyActive (total : Z)
| ParseError (message : jsstring)
| NoPrompt
| Activated (parsed : ParsedArgs)
| NoActiveLoop
| Cancelled (iterations sessions elapsed : Z)
| StatusReport (st : RalphState) (context : option jsnum) (elapsed : Z)
| CreatingSession
| HandoffCancelled
| Continuing (sessions : Z)
| PlanUpdated
| MaxReached (max sessions elapsed : Z)
| Complete (promise : jsstring) (total sessions elapsed : Z)
| ContextWarning (percent : jsnum)
| Resumed (total max sessions : Z)
| HandoffPending.

(** The content of the custom messages, likewise. *)
Inductive Message :=
| ContinueMessage (sessions total : Z) (plan : option jsstring)
| UpdateMessage (percent : jsnum) (threshold : Z) (plan : jsstring)
| IterationMessage (total max : Z) (promise : option jsstring).

(** The calls into the host.  [sendMessage] is always called with
    display true and triggerTurn false; [appendEntry] with the custom type
    ralph-state. *)
Inductive Effect :=
| ui_notify (message : Notice) (level : Level)
| ui_setStatus (text : option StatusLine)
| appendEntry (data : option RalphState)
| sendMessage (customType : jsstring) (content : Message)
| sendUserMessage (text : jsstring).

Definition is_active (state : option RalphState) : bool :=
  match state with
  | Some st => active st
  | None => false
  end.

Definition updateStatus (state : option RalphState) (ctx : ExtensionContext) : Effect :=
  match state with
  | Some st =>
      if active st then
        ui_setStatus
          (Some {| status_total := totalIterations st;
                   status_max := if 0 <? maxIterations st
                                 then Some (maxIterations st) else None;
                   status_sessions := if 1 <? sessionCount st
                                      then Some (sessionCount st) else None;
                   status_context := getContextUsagePercent ctx |})
      else ui_setStatus None
  | None => ui_setStatus None
  end.

Definition persistState (state : option RalphState) : Effect := appendEntry state.

(** [Math.round((Date.now() - state.startedAt) / 1000)], for a time
    difference below 2^53 milliseconds. *)
Definition elapsed (now : Z) (st : RalphState) : Z :=
  (now - startedAt st + 500) / 1000.

Definition with_pending (st : RalphState) (b : bool) : RalphState :=
  {| active := active st; prompt := prompt st; iteration := iteration st;
     totalIterations := totalIterations st; maxIterations := maxIterations st;
     completionPromise := completionPromise st; planFile := planFile st;
     contextThreshold := contextThreshold st; startedAt := startedAt st;
     sessionCount := sessionCount st; pendingHandoff := b |}.

(** [state.iteration++; state.totalIterations++] *)
Definition next_iteration (st : RalphState) : RalphState :=
  {| active := active st; prompt := prompt st; iteration := iteration st + 1;
     totalIterations := totalIterations st + 1; maxIterations := maxIterations st;
     completionPromise := completionPromise st; planFile := planFile st;
     contextThreshold := contextThreshold st; startedAt := startedAt st;
     sessionCount := sessionCount st; pendingHandoff := pendingHandoff st |}.

(** [state.sessionCount++; state.iteration = 0; state.pendingHandoff = false] *)
Definition new_session (st : RalphState) : RalphState :=
  {| active := active st; prompt := prompt st; iteration := 0;
     totalIterations := totalIterations st; maxIterations := maxIterations st;
     completionPromise := completionPromise st; planFile := planFile st;
     contextThreshold := contextThreshold st; startedAt := startedAt st;
     sessionCount := sessionCount st + 1; pendingHandoff := false |}.

Definition result : Type := option RalphState * list Effect.

(** The handler of the [/ralph] command. *)
Definition ralph_command (args : jsstring) (ctx : ExtensionContext) (now : Z)
    (state : option RalphState) : result :=
  if negb (truthy (trim args)) || includes args (js "--help") || includes args (js "-h")
  then (state, [ui_notify Help info])
  else if is_active state then
    (state,
     match state with
     | Some st => [ui_notify (AlreadyActive (totalIterations st)) warning]
     | None => []
     end)
  else
    let parsed := parseArgs args in
    if truthy_opt (p_error parsed) then
      (state,
       match p_error parsed with
       | Some e => [ui_notify (ParseError e) error]
       | None => []
       end)
    else if negb (truthy (p_prompt parsed)) then (state, [ui_notify NoPrompt error])
    else
      let st := {| active := true;
                   prompt := p_prompt parsed;
                   iteration := 1;
                   totalIterations := 1;
                   maxIterations := p_maxIterations parsed;
                   completionPromise := p_completionPromise parsed;
                   planFile := p_planFile parsed;
                   contextThreshold := p_contextThreshold parsed;
                   startedAt := now;
                   sessionCount := 1;
                   pendingHandoff := false |} in
      (Some st,
       [persistState (Some st);
        updateStatus (Some st) ctx;
        ui_notify (Activated parsed) info;
        sendUserMessage (p_prompt parsed)]).

(** The handler of [/cancel-ralph]. *)
Definition cancel_ralph (ctx : ExtensionContext) (now : Z) (state : option RalphState)
    : result :=
  match state with
  | Some st =>
      if active st then
        (None,
         [persistState None;
          updateStatus None ctx;
          ui_notify (Cancelled (totalIterations st) (sessionCount st) (elapsed now st)) info])
      else (state, [ui_notify NoActiveLoop info])
  | None => (state, [ui_notify NoActiveLoop info])
  end.

(** The handler of [/ralph-status]. *)
Definition ralph_status (ctx : ExtensionContext) (now : Z) (state : option RalphState)
    : result :=
  match state with
  | Some st =>
      if active st then
        (state,
         [ui_notify (StatusReport st (getContextUsagePercent ctx) (elapsed now st)) info])
      else (state, [ui_notify NoActiveLoop info])
  | None => (state, [ui_notify NoActiveLoop info])
  end.

(** What [ctx.newSession] answers: cancelled, or the context of the new
    session. *)
Inductive NewSession :=
| SessionCancelled
| SessionCreated (ctx : ExtensionContext).

Definition performHandoff (outcome : NewSession) (state : option RalphState) : result :=
  match state with
  | None => (None, [])
  | Some st =>
      match outcome with
      | SessionCancelled =>
          (Some (with_pending st false),
           [ui_notify CreatingSession info; ui_notify HandoffCancelled warning])
      | SessionCreated ctx =>
          let st1 := new_session st in
          let st2 := next_iteration st1 in
          (Some st2,
           [ui_notify CreatingSession info;
            persistState (Some st1);
            updateStatus (Some st1) ctx;
            ui_notify (Continuing (sessionCount st1)) info;
            persistState (Some st2);
            sendMessage (js "ralph-handoff")
              (ContinueMessage (sessionCount st2) (totalIterations st2)
                 (if truthy_opt (planFile st2) then planFile st2 else None));
            sendUserMessage (prompt st2)])
      end
  end.

(** The handler of [/ralph-handoff]; [confirm] is the answer to the
    confirmation dialog, which is asked only when no handoff is pending. *)
Definition ralph_handoff (ctx : ExtensionContext) (confirm : bool)
    (outcome : NewSession) (state : option RalphState) : result :=
  match state with
  | Some st =>
      if active st then
        if negb (pendingHandoff st) && negb confirm then (state, [])
        else performHandoff outcome (Some (with_pending st true))
      else (state, [ui_notify NoActiveLoop info])
  | None => (state, [ui_notify NoActiveLoop info])
  end.

(** [[...event.messages].reverse().find(isAssistantMessage)] *)
Definition lastAssistant (messages : list AgentMessage) : option AgentMessage :=
  find isAssistantMessage (rev messages).

(** Whether the completion-promise check of [agent_end] succeeds. *)
Definition promise_fulfilled (st : RalphState) (messages : list AgentMessage) : bool :=
  match completionPromise st with
  | Some promise =>
      truthy promise
      && match lastAssistant messages with
         | Some m =>
             match extractPromiseText (extractTextContent m) with
             | Some promiseText => str_eqb promiseText promise
             | None => false
             end
         | None => false
         end
  | None => false
  end.

(** The last part of [agent_end]: continue the loop. *)
Definition continue_loop (ctx : ExtensionContext) (st : RalphState) : result :=
  let st' := next_iteration st in
  (Some st',
   [persistState (Some st');
    updateStatus (Some st') ctx;
    sendMessage (js "ralph-iteration")
      (IterationMessage (totalIterations st') (maxIterations st')
         (if truthy_opt (completionPromise st') then completionPromise st' else None));
    sendUserMessage (prompt st')]).

(** The [agent_end] handler: the core loop. *)
Definition agent_end (messages : list AgentMessage) (ctx : ExtensionContext) (now : Z)
    (state : option RalphState) : result :=
  match state with
  | None => (state, [])
  | Some st =>
      if negb (active st) then (state, [])
      else if pendingHandoff st then (state, [ui_notify PlanUpdated info])
      else if (0 <? maxIterations st) && (maxIterations st <=? totalIterations st) then
        (None,
         [ui_notify (MaxReached (maxIterations st) (sessionCount st) (elapsed now st)) info;
          persistState None;
          updateStatus None ctx])
      else if promise_fulfilled st messages then
        (None,
         [ui_notify (Complete (match completionPromise st with Some t => t | None => [] end)
                              (totalIterations st) (sessionCount st) (elapsed now st)) info;
          persistState None;
          updateStatus None ctx])
      else
        match getContextUsagePercent ctx with
        | Some contextPercent =>
            if num_ge contextPercent (contextThreshold st) then
              match planFile st with
              | Some plan =>
                  if truthy plan then
                    let st' := with_pending st true in
                    (Some st',
                     [persistState (Some st');
                      sendMessage (js "ralph-context-warning")
                        (UpdateMessage contextPercent (contextThreshold st) plan);
                      sendUserMessage
                        (js "Update " ++ plan
                         ++ js " with current progress before session handoff.")])
                  else
                    let (s', effects) := continue_loop ctx st in
                    (s', ui_notify (ContextWarning contextPercent) warning :: effects)
              | None =>
                  let (s', effects) := continue_loop ctx st in
                  (s', ui_notify (ContextWarning contextPercent) warning :: effects)
              end
            else continue_loop ctx st
        | None => continue_loop ctx st
        end
  end.

(** What the [before_agent_start] handler puts into its hidden message. *)
Record LoopContext := {
  lc_total : Z;
  lc_max : Z;
  lc_sessions : Z;
  lc_plan : option jsstring;
  lc_promise : option jsstring;
  lc_pending : bool
}.

Definition before_agent_start (state : option RalphState) : option LoopContext :=
  match state with
  | Some st =>
      if active st then
        Some {| lc_total := totalIterations st;
                lc_max := maxIterations st;
                lc_sessions := sessionCount st;
                lc_plan := if truthy_opt (planFile st) then planFile st else None;
                lc_promise := if truthy_opt (completionPromise st)
                              then completionPromise st else None;
                lc_pending := pendingHandoff st |}
      else None
  | None => None
  end.

(** The last ralph-state entry of the log, or the state as it is. *)
Fixpoint restore (entries : list (SessionEntry (option RalphState)))
    (state : option RalphState) : option RalphState :=
  match entries with
  | [] => state
  | CustomEntry customType data :: rest =>
      if str_eqb customType (js "ralph-state") then restore rest data
      else restore rest state
  | _ :: rest => restore rest state
  end.

(** The [session_start] handler. *)
Definition session_start (ctx : ExtensionContext) (state : option RalphState) : result :=
  let state' := restore (getEntries ctx) state in
  (state',
   updateStatus state' ctx
   :: match state' with
      | Some st =>
          if active st then
            ui_notify (Resumed (totalIterations st) (maxIterations st) (sessionCount st)) info
            :: (if pendingHandoff st then [ui_notify HandoffPending warning] else [])
          else []
      | None => []
      end).

End WithHost.

End Ralph.

(* ================================================================== *)
(** ** Reference statements of the specification *)
(* ================================================================== *)

(** The reference behaviour of [add] on the buffer, in the words of the
    specification: trim; ignore if empty or equal to the current
    most-recent entry; prepend; truncate to 150 by dropping the oldest. *)
Definition add_reference (text : jsstring) (buffer : list jsstring) : list jsstring :=
  let trimmed := trim text in
  match trimmed with
  | [] => buffer
  | _ :: _ =>
      match buffer with
      | recent :: _ =>
          if str_eqb recent trimmed then buffer
          else firstn 150 (trimmed :: buffer)
      | [] => firstn 150 (trimmed :: buffer)
      end
  end.

(** The string-typed elements of a parsed array, in their order. *)
Fixpoint string_elements (data : list json) : list jsstring :=
  match data with
  | [] => []
  | JStr s :: rest => s :: string_elements rest
  | _ :: rest => string_elements rest
  end.

(** What file-backed construction leaves in the buffer, by what the
    history path holds: nothing for a missing, unreadable, corrupted or
    non-array file, otherwise the first 150 string elements. *)
Definition loaded_reference {R : Runtime} (file : option node) : list jsstring :=
  match file with
  | Some (File content) =>
      match JSON_parse content with
      | Normal (JArr items) => firstn 150 (string_elements items)
      | _ => []
      end
  | _ => []
  end.

(** [n] calls of [add], on the entries "entry-0", "entry-1", ... *)
Definition sequential_entries (n : nat) : list jsstring :=
  map (fun i => js "entry-" ++ Number_toString i) (seq 0 n).

Definition add_all {R : Runtime} (texts : list jsstring)
    (s : InputHistoryManager.t * filesystem) : InputHistoryManager.t * filesystem :=
  fold_left (fun acc text => InputHistoryManager.add text acc) texts s.

(** A checkpoint file is an entry of the checkpoint directory whose name
    ends in [.json]: its last five code units are those. *)
Definition has_json_extension (name : jsstring) : bool :=
  (5 <=? List.length name)%nat
  && str_eqb (skipn (List.length name - 5) name) (js ".json").

(** The summary that the listing shows for the parsed text of a
    checkpoint file: the value has to be an object with a [stats] member
    other than [null]; the summary holds its [id], [timestamp] and
    [description] members and the [messageCount] member of [stats], each
    [undefined] when absent. *)
Definition summary_of (v : json) : option Checkpoint.Summary :=
  match v with
  | JObj members =>
      match lookup_member (js "stats") members with
      | None | Some JNull => None
      | Some stats =>
          Some {| Checkpoint.s_id := lookup_member (js "id") members;
                  Checkpoint.s_timestamp := lookup_member (js "timestamp") members;
                  Checkpoint.s_description := lookup_member (js "description") members;
                  Checkpoint.s_messageCount :=
                    match stats with
                    | JObj counts => lookup_member (js "messageCount") counts
                    | _ => None
                    end |}
      end
  | _ => None
  end.

(** What the listing shows for the entry [name] of the directory: nothing
    for an entry that is no regular file or whose text is not JSON,
    otherwise the summary of the parsed text, if it has one. *)
Definition listed {R : Runtime} (fs : filesystem) (name : jsstring)
    : option Checkpoint.Summary :=
  match lookup name fs with
  | Some (File content) =>
      match JSON_parse content with
      | Normal v => summary_of v
      | Throw _ => None
      end
  | _ => None
  end.

(** The summaries of the checkpoint files of a directory, in enumeration
    order. *)
Definition listed_summaries {R : Runtime} (fs : filesystem) : list Checkpoint.Summary :=
  flat_map (fun name => match listed fs name with Some s => [s] | None => [] end)
    (filter has_json_extension (map fst fs)).

(** The time value of a summary's timestamp. *)
Definition time_of {R : Runtime} (s : Checkpoint.Summary) : option Z :=
  Date_getTime (Checkpoint.s_timestamp s).

(** [a] is at least as new as [b]. *)
Definition not_older {R : Runtime} (a b : Checkpoint.Summary) : Prop :=
  exists ta tb, time_of a = Some ta /\ time_of b = Some tb /\ tb <= ta.

(** Sorted by timestamp, descending. *)
Definition newest_first_sorted {R : Runtime} (l : list Checkpoint.Summary) : Prop :=
  StronglySorted not_older l.

(** The summaries one file contributes to the listing: one, or none. *)
Definition summary_list {R : Runtime} (fs : filesystem) (file : jsstring)
    : list Checkpoint.Summary :=
  match Checkpoint.readSummary fs file with
  | Normal s => [s]
  | Throw _ => []
  end.

(** The time value as a sort key (0 where there is none). *)
Definition time_key {R : Runtime} (s : Checkpoint.Summary) : Z :=
  match time_of s with Some t => t | None => 0 end.

(** Descending order of a key. *)
Definition descending {A} (key : A -> Z) (a b : A) : Prop := key b <= key a.

(** *** Promise markers *)

(** The first occurrence of [p] in [s]: what precedes it, what follows it. *)
Fixpoint find_first (p s : jsstring) : option (jsstring * jsstring) :=
  match strip_prefix p s with
  | Some r => Some ([], r)
  | None =>
      match s with
      | [] => None
      | c :: s' =>
          match find_first p s' with
          | Some (a, b) => Some (c :: a, b)
          | None => None
          end
      end
  end.

(** [W] is the text enclosed by the first promise marker of [text]: the
    text is [pre <promise> W </promise> post], no [<promise>] starts
    before this one, and no [</promise>] starts after it before the one
    that ends [W]. *)
Definition first_marker (text W : jsstring) : Prop :=
  exists pre post,
    text = pre ++ Ralph.open_tag ++ W ++ Ralph.close_tag ++ post
    /\ (forall pre' post',
           text = pre' ++ Ralph.open_tag ++ post' ->
           (List.length pre <= List.length pre')%nat)
    /\ (forall W' post',
           W ++ Ralph.close_tag ++ post = W' ++ Ralph.close_tag ++ post' ->
           (List.length W <= List.length W')%nat).

(** [text] contains the marker [<promise>W</promise>] somewhere. *)
Definition contains_marker (text W : jsstring) : Prop :=
  exists pre post, text = pre ++ Ralph.open_tag ++ W ++ Ralph.close_tag ++ post.

(** [m] is the most recent assistant message of the turn. *)
Definition most_recent_assistant (messages : list AgentMessage) (m : AgentMessage) : Prop :=
  exists before after,
    messages = before ++ m :: after
    /\ Ralph.isAssistantMessage m = true
    /\ Forall (fun x => Ralph.isAssistantMessage x = false) after.

(** *** The loop as a sequence of agent turns *)

(** One [agent_end] event: the messages of the turn, the context, the clock. *)
Record TurnEnd := {
  turn_messages : list AgentMessage;
  turn_ctx : Ralph.ExtensionContext;
  turn_now : Z
}.

(** The host fires [agent_end] after each turn; the effects add up. *)
Fixpoint run {H : CodingAgent} (events : list TurnEnd) (state : option Ralph.RalphState)
    : Ralph.result :=
  match events with
  | [] => (state, [])
  | e :: rest =>
      let (state1, effects1) :=
        Ralph.agent_end (turn_messages e) (turn_ctx e) (turn_now e) state in
      let (state2, effects2) := run rest state1 in
      (state2, effects1 ++ effects2)
  end.

(** The user messages among the effects, in order. *)
Definition user_messages (effects : list Ralph.Effect) : list jsstring :=
  flat_map (fun e => match e with Ralph.sendUserMessage t => [t] | _ => [] end) effects.

(** The custom messages of one type among the effects. *)
Definition custom_messages (customType : string) (effects : list Ralph.Effect)
    : list Ralph.Message :=
  flat_map (fun e => match e with
                     | Ralph.sendMessage t m => if str_eqb t (js customType) then [m] else []
                     | _ => []
                     end) effects.

(** The context check of [agent_end] asks for a handoff: the usage is
    known and at least the threshold, and a plan file is configured. *)
Definition handoff_due {H : CodingAgent} (st : Ralph.RalphState)
    (ctx : Ralph.ExtensionContext) : bool :=
  match Ralph.getContextUsagePercent ctx with
  | Some percent =>
      num_ge percent (Ralph.contextThreshold st) && truthy_opt (Ralph.planFile st)
  | None => false
  end.

(** The notifications and host calls of a loop that stops. *)
Definition stopped_at_max (st : Ralph.RalphState) (now : Z)
    : Ralph.result :=
  (None,
   [Ralph.ui_notify
      (Ralph.MaxReached (Ralph.maxIterations st) (Ralph.sessionCount st)
         (Ralph.elapsed now st)) info;
    Ralph.appendEntry None;
    Ralph.ui_setStatus None]).

Definition completed (st : Ralph.RalphState) (tag : jsstring) (now : Z)
    : Ralph.result :=
  (None,
   [Ralph.ui_notify
      (Ralph.Complete tag (Ralph.totalIterations st) (Ralph.sessionCount st)
         (Ralph.elapsed now st)) info;
    Ralph.appendEntry None;
    Ralph.ui_setStatus None]).

(** The max-iterations check of [agent_end] fires. *)
Definition max_reached (st : Ralph.RalphState) : bool :=
  (0 <? Ralph.maxIterations st) && (Ralph.maxIterations st <=? Ralph.totalIterations st).

(** *** Sample data *)

Definition sample_checkpoint (ident time : string) : Checkpoint.Checkpoint :=
  {| Checkpoint.id := js ident;
     Checkpoint.description := None;
     Checkpoint.cwd := js "/work";
     Checkpoint.timestamp := js time;
     Checkpoint.serializedContext := js "user: hello";
     Checkpoint.stats := {| Checkpoint.messageCount := 1;
                            Checkpoint.userMessages := 1;
                            Checkpoint.assistantMessages := 0;
                            Checkpoint.toolCalls := 0 |} |}.

Definition sample_file (ident time : string) : jsstring * node :=
  (js ident ++ js ".json",
   File (Reference.stringify 0 (Checkpoint.to_json (sample_checkpoint ident time)))).

(** A checkpoint directory with two checkpoints, a corrupted file and a
    file that is no checkpoint. *)
Definition sample_directory : filesystem :=
  [ sample_file "abc234" "2024-01-05T08:00:00.000Z";
    (js "broken.json", File (js "{ not json"));
    (js "notes.txt", File (js "remember"));
    sample_file "xyz789" "2024-03-01T12:30:15.250Z" ].

(** The sample directory with, besides, a copy of a checkpoint under a
    name that does not end in [.json], and a file of JSON text that is no
    checkpoint. *)
Definition archive_directory : filesystem :=
  [ (js "abc234.json.bak",
     File (Reference.stringify 0
             (Checkpoint.to_json (sample_checkpoint "abc234" "2024-01-05T08:00:00.000Z")))) ]
  ++ sample_directory
  ++ [ (js "draft.json", File (jsq "{'id': 'draft', 'timestamp': '2024-02-01T00:00:00.000Z'}")) ].

(** A checkpoint file whose object has no [timestamp] member. *)
Definition undated_file (ident : string) : jsstring * node :=
  (js ident ++ js ".json",
   File (Reference.stringify 0
           (JObj [(js "id", JStr (js ident));
                  (js "cwd", JStr (js "/work"));
                  (js "serializedContext", JStr (js "user: hello"));
                  (js "stats", JObj [(js "messageCount", JNum 1 0)])]))).

(** A directory with a checkpoint of January, an undated one, and one of
    June, enumerated in this order. *)
Definition undated_directory : filesystem :=
  [ sample_file "january" "2024-01-05T08:00:00.000Z";
    undated_file "undated";
    sample_file "june" "2024-06-01T12:00:00.000Z" ].

Definition sample_environment : Checkpoint.Environment :=
  {| Checkpoint.random := fun _ => 0.5%float;
     Checkpoint.now_iso := js "2024-03-02T00:00:00.000Z" |}.

Definition assistant_says (text : string) (used : float) : AgentMessage :=
  {| role := js "assistant";
     content := Some (ContentBlocks [TextContent (js text)]);
     usage := Some {| tokens := used |} |}.

(** A context whose model has a window of 200000 tokens and whose last
    assistant turn used [tokens]. *)
Definition sample_ctx (tokens : float) : Ralph.ExtensionContext :=
  {| Ralph.model := Some {| Ralph.contextWindow := 200000 |};
     Ralph.getEntries := [MessageEntry (assistant_says "working" tokens)] |}.

Definition sample_turn (text : string) (tokens : float) (now : Z) : TurnEnd :=
  {| turn_messages := [assistant_says text tokens];
     turn_ctx := sample_ctx tokens;
     turn_now := now |}.

Definition sample_state (tag plan : option jsstring) : Ralph.RalphState :=
  {| Ralph.active := true;
     Ralph.prompt := js "Fix the failing tests";
     Ralph.iteration := 2;
     Ralph.totalIterations := 2;
     Ralph.maxIterations := 0;
     Ralph.completionPromise := tag;
     Ralph.planFile := plan;
     Ralph.contextThreshold := 70;
     Ralph.startedAt := 1000;
     Ralph.sessionCount := 1;
     Ralph.pendingHandoff := false |}.

(* ================================================================== *)
(** ** Strings *)
(* ================================================================== *)

(** Closes a goal between closed terms by running both sides. *)
Ltac by_computation := vm_compute; reflexivity.

Lemma str_eqb_eq (a b : jsstring) : str_eqb a b = true <-> a = b.
Proof.
  unfold str_eqb. destruct (list_eq_dec N.eq_dec a b); split; congruence.
Qed.

Lemma str_eqb_refl (a : jsstring) : str_eqb a a = true.
Proof. now apply str_eqb_eq. Qed.

Lemma str_eqb_neq (a b : jsstring) : str_eqb a b = false <-> a <> b.
Proof.
  unfold str_eqb. destruct (list_eq_dec N.eq_dec a b); split; congruence.
Qed.

Lemma firstn_short {A} (n : nat) (l : list A) :
  (n <? List.length l)%nat = false -> firstn n l = l.
Proof.
  intros Hlt. apply Nat.ltb_ge in Hlt. now apply firstn_all2.
Qed.

Lemma strip_prefix_app (p r : jsstring) : strip_prefix p (p ++ r) = Some r.
Proof.
  induction p as [|a p IH]; simpl; [reflexivity|]. now rewrite N.eqb_refl.
Qed.

Lemma strip_prefix_some (p s r : jsstring) : strip_prefix p s = Some r -> s = p ++ r.
Proof.
  revert s. induction p as [|a p IH]; intros s Hs; simpl in *.
  - congruence.
  - destruct s as [|b s]; [discriminate|].
    destruct (N.eqb_spec a b); [|discriminate]. subst. f_equal. now apply IH.
Qed.

Lemma find_first_nil (p : jsstring) :
  find_first p [] = match strip_prefix p [] with Some r => Some ([], r) | None => None end.
Proof. reflexivity. Qed.

Lemma find_first_cons (p : jsstring) (c : N) (s : jsstring) :
  find_first p (c :: s)
  = match strip_prefix p (c :: s) with
    | Some r => Some ([], r)
    | None => match find_first p s with
              | Some (a, b) => Some (c :: a, b)
              | None => None
              end
    end.
Proof. reflexivity. Qed.

Lemma find_first_sound (p s a b : jsstring) :
  find_first p s = Some (a, b) -> s = a ++ p ++ b.
Proof.
  revert a. induction s as [|c s IH]; intros a Hf.
  - rewrite find_first_nil in Hf.
    destruct (strip_prefix p []) eqn:Hp; [|discriminate].
    injection Hf as <- <-. now apply (strip_prefix_some p).
  - rewrite find_first_cons in Hf.
    destruct (strip_prefix p (c :: s)) eqn:Hp.
    + injection Hf as <- <-. now apply (strip_prefix_some p).
    + destruct (find_first p s) as [[a0 b0]|]; [|discriminate].
      injection Hf as <- <-. simpl. f_equal. now apply IH.
Qed.

Lemma find_first_least (p s a b : jsstring) :
  find_first p s = Some (a, b) ->
  forall a' b', s = a' ++ p ++ b' -> (List.length a <= List.length a')%nat.
Proof.
  revert a. induction s as [|c s IH]; intros a Hf a' b' Hs.
  - rewrite find_first_nil in Hf.
    destruct (strip_prefix p []); [|discriminate]. injection Hf as <- <-. simpl. lia.
  - rewrite find_first_cons in Hf.
    destruct (strip_prefix p (c :: s)) eqn:Hp.
    + injection Hf as <- <-. simpl. lia.
    + destruct (find_first p s) as [[a0 b0]|] eqn:Hf0; [|discriminate].
      injection Hf as <- <-.
      destruct a' as [|c' a'].
      * simpl in Hs. rewrite Hs, strip_prefix_app in Hp. discriminate.
      * simpl in Hs. injection Hs as -> Hs. simpl.
        apply le_n_S. now apply (IH a0 eq_refl a' b').
Qed.

Lemma find_first_exists (p s a' b' : jsstring) :
  s = a' ++ p ++ b' -> exists a b, find_first p s = Some (a, b).
Proof.
  revert s. induction a' as [|c a' IH]; intros s Hs; subst s.
  - cbn [app]. destruct (p ++ b') as [|c s] eqn:Hs.
    + rewrite find_first_nil, <- Hs, strip_prefix_app. eauto.
    + rewrite find_first_cons, <- Hs, strip_prefix_app. eauto.
  - simpl app. rewrite find_first_cons.
    destruct (strip_prefix p (c :: a' ++ p ++ b')); [eauto|].
    destruct (IH _ eq_refl) as (a & b & ->). eauto.
Qed.

Lemma app_same_length {A} (a a' b b' : list A) :
  a ++ b = a' ++ b' -> List.length a = List.length a' -> a = a' /\ b = b'.
Proof.
  revert a'. induction a as [|x a IH]; intros [|x' a'] Heq Hlen; simpl in *;
    try discriminate; [auto|].
  injection Heq as -> Heq. injection Hlen as Hlen.
  destruct (IH _ Heq Hlen) as [-> ->]. auto.
Qed.

Lemma find_first_unique (p s a b : jsstring) :
  s = a ++ p ++ b ->
  (forall a' b', s = a' ++ p ++ b' -> (List.length a <= List.length a')%nat) ->
  find_first p s = Some (a, b).
Proof.
  intros Hs Hleast.
  destruct (@find_first_exists _ _ _ _ Hs) as (a0 & b0 & Hf). rewrite Hf.
  pose proof (@find_first_sound _ _ _ _ Hf) as Hs0.
  pose proof (@find_first_least _ _ _ _ Hf _ _ Hs) as Hle.
  pose proof (Hleast _ _ Hs0) as Hge.
  rewrite Hs in Hs0.
  destruct (@app_same_length _ _ _ _ _ Hs0) as [-> Heq]; [lia|].
  apply app_inv_head in Heq. now subst.
Qed.

Lemma find_first_none (p s a b : jsstring) :
  find_first p s = None -> s <> a ++ p ++ b.
Proof.
  intros Hnone Hs. destruct (@find_first_exists _ _ _ _ Hs) as (? & ? & Hf). congruence.
Qed.

(** *** Trimming *)

Lemma dropWhile_head (p : N -> bool) (s : jsstring) :
  match dropWhile p s with
  | c :: _ => p c = false
  | [] => True
  end.
Proof.
  induction s as [|c s IH]; simpl; [exact I|].
  destruct (p c) eqn:Hc; [exact IH | exact Hc].
Qed.

Lemma dropWhile_id (p : N -> bool) (s : jsstring) :
  match s with c :: _ => p c = false | [] => True end -> dropWhile p s = s.
Proof.
  destruct s as [|c s]; simpl; [reflexivity|]. now intros ->.
Qed.

Lemma dropWhile_all (p : N -> bool) (s : jsstring) :
  forallb p s = true -> dropWhile p s = [].
Proof.
  induction s as [|c s IH]; simpl; [reflexivity|].
  destruct (p c); simpl; [exact IH | discriminate].
Qed.

Lemma dropWhile_snoc (p : N -> bool) (s : jsstring) (c : N) :
  dropWhile p (s ++ [c])
  = if forallb p s then (if p c then [] else [c]) else dropWhile p s ++ [c].
Proof.
  induction s as [|x s IH]; simpl; [reflexivity|].
  destruct (p x); simpl; [exact IH | reflexivity].
Qed.

Lemma forallb_rev (p : N -> bool) (s : jsstring) : forallb p (rev s) = forallb p s.
Proof.
  induction s as [|c s IH]; simpl; [reflexivity|].
  rewrite forallb_app, IH. simpl. rewrite andb_true_r. apply andb_comm.
Qed.

Lemma trimEnd_cons (c : N) (s : jsstring) :
  trimEnd (c :: s) = if is_ws c && forallb is_ws s then [] else c :: trimEnd s.
Proof.
  unfold trimEnd. simpl. rewrite dropWhile_snoc, forallb_rev.
  destruct (forallb is_ws s) eqn:Hall.
  - rewrite andb_true_r. destruct (is_ws c); [reflexivity|].
    rewrite (dropWhile_all is_ws (rev s)); [reflexivity | now rewrite forallb_rev].
  - rewrite andb_false_r, rev_app_distr. reflexivity.
Qed.

Lemma trimEnd_all (s : jsstring) : forallb is_ws s = true -> trimEnd s = [].
Proof.
  intros Hall. unfold trimEnd. rewrite dropWhile_all; [reflexivity|].
  now rewrite forallb_rev.
Qed.

Lemma trimEnd_idempotent (s : jsstring) : trimEnd (trimEnd s) = trimEnd s.
Proof.
  unfold trimEnd. rewrite rev_involutive. f_equal.
  apply dropWhile_id. apply dropWhile_head.
Qed.

Lemma trimStart_trimEnd (s : jsstring) :
  match s with c :: _ => is_ws c = false | [] => True end ->
  trimStart (trimEnd s) = trimEnd s.
Proof.
  intros Hhead. unfold trimStart. apply dropWhile_id.
  destruct s as [|c s]; [exact I|].
  rewrite trimEnd_cons, Hhead. simpl. exact Hhead.
Qed.

Lemma trim_idempotent (s : jsstring) : trim (trim s) = trim s.
Proof.
  unfold trim. rewrite trimStart_trimEnd.
  - apply trimEnd_idempotent.
  - apply dropWhile_head.
Qed.

(* ================================================================== *)
(** ** Input history *)
(* ================================================================== *)

Section HistoryFacts.
Context {R : Runtime}.
Import InputHistoryManager.

Lemma string_items_elements (data : list json) :
  string_items data = firstn 150 (string_elements data).
Proof.
  unfold string_items, MAX_HISTORY_SIZE. f_equal.
  induction data as [|v data IH]; simpl; [reflexivity|].
  destruct v; simpl; rewrite ?IH; reflexivity.
Qed.

Lemma add_history (text : jsstring) (m : t) (fs : filesystem) :
  history (fst (add text (m, fs))) = add_reference text (history m).
Proof.
  unfold add, add_reference.
  destruct (trim text) as [|c trimmed] eqn:Htrim; simpl; [reflexivity|].
  destruct (history m) as [|h0 older] eqn:Hh; simpl.
  - reflexivity.
  - destruct (str_eqb h0 (c :: trimmed)); simpl; [assumption|].
    destruct (MAX_HISTORY_SIZE <? S (S (List.length older)))%nat eqn:Hlen; simpl.
    + reflexivity.
    + symmetry. change 150%nat with MAX_HISTORY_SIZE.
      apply (firstn_short MAX_HISTORY_SIZE (_ :: _ :: _)). exact Hlen.
Qed.

Lemma add_keeps_fields (text : jsstring) (m : t) (fs : filesystem) :
  historyPath (fst (add text (m, fs))) = historyPath m
  /\ persist (fst (add text (m, fs))) = persist m.
Proof.
  unfold add.
  destruct (negb (truthy (trim text))); simpl; [auto|].
  destruct (_ && _); simpl; auto.
Qed.

End HistoryFacts.

(** C5, as stated, at its last example: after 200 sequential unique
    entries, entry 149 of the buffer is not the 50th entry added (it is the
    51st, "entry-50" when the labels start at 0). *)
Lemma history_entry_149_not_50th :
  let texts := sequential_entries 200 in
  let m := fst (add_all (R := Reference.runtime) texts
                        (InputHistoryManager.inMemory (R := Reference.runtime) [], [])) in
  nth_error texts 199 = Some (js "entry-199")
  /\ InputHistoryManager.get m 0 = nth_error texts 199
  /\ nth_error texts 49 = Some (js "entry-49")
  /\ InputHistoryManager.get m 149 = Some (js "entry-50")
  /\ InputHistoryManager.get m 149 <> nth_error texts 49.
Proof.
  repeat split; try (by_computation).
  vm_compute. discriminate.
Qed.

(** C5, amended.  [add] acts on the buffer as the reference definition: the
    text is trimmed; an empty text or one equal to the most recent entry
    leaves the buffer as it is; otherwise the trimmed text is put in front
    and the buffer cut to 150 entries, the oldest dropped.  So: "hello"
    added twice gives length 1; "hello", "world", "hello" gives the three
    entries hello, world, hello; 200 sequential unique entries added to an
    empty buffer give length 150, entry 0 the 200th added and entry 149 the
    51st added. *)
Theorem history_add_as_reference :
  forall (R : Runtime),
  (forall (text : jsstring) (m : InputHistoryManager.t) (fs : filesystem),
      InputHistoryManager.history (fst (InputHistoryManager.add text (m, fs)))
      = add_reference text (InputHistoryManager.history m))
  /\ (let m := fst (add_all [js "hello"; js "hello"]
                            (InputHistoryManager.inMemory [], [])) in
      InputHistoryManager.length m = 1%nat)
  /\ (let m := fst (add_all [js "hello"; js "world"; js "hello"]
                            (InputHistoryManager.inMemory [], [])) in
      InputHistoryManager.length m = 3%nat
      /\ InputHistoryManager.getAll m = [js "hello"; js "world"; js "hello"])
  /\ (let texts := sequential_entries 200 in
      let m := fst (add_all texts (InputHistoryManager.inMemory [], [])) in
      InputHistoryManager.length m = 150%nat
      /\ InputHistoryManager.get m 0 = nth_error texts (200 - 1)
      /\ InputHistoryManager.get m 149 = nth_error texts (51 - 1)).
Proof.
  intros R.
  split; [intros; apply add_history|].
  repeat split; by_computation.
Qed.

Lemma load_history {R : Runtime} (fs : filesystem) (m : InputHistoryManager.t) :
  InputHistoryManager.persist m = true ->
  InputHistoryManager.history m = [] ->
  InputHistoryManager.history (InputHistoryManager.load fs m)
  = loaded_reference (lookup (InputHistoryManager.historyPath m) fs).
Proof.
  intros Hp Hh. unfold InputHistoryManager.load, loaded_reference, existsSync, readFileSync.
  rewrite Hp. simpl.
  destruct (lookup (InputHistoryManager.historyPath m) fs) as [[content|]|]; simpl; auto.
  destruct (JSON_parse content) as [data|e]; simpl; auto.
  destruct data; simpl; auto.
  apply string_items_elements.
Qed.

(** C6, as stated, on a file that holds an array of 151 strings: the
    buffer is not the string-typed elements of the array, it stops at 150. *)
Lemma history_load_cuts_at_150 :
  let items := repeat (JStr (js "x")) 151 in
  let content := Reference.stringify 0 (JArr items) in
  let agentDir := js "/home/user/.pi/agent" in
  let fs := [(js "/home/user/.pi/agent/input-history.json", File content)] in
  let m := InputHistoryManager.create (R := Reference.runtime) fs agentDir in
  Reference.json_parse content = Normal (JArr items)
  /\ string_elements items = repeat (js "x") 151
  /\ InputHistoryManager.history m = repeat (js "x") 150
  /\ InputHistoryManager.history m <> string_elements items.
Proof.
  repeat split; try (by_computation).
  vm_compute. discriminate.
Qed.

(** C6, amended.  File-backed construction loads the JSON array from disk,
    keeps only its string-typed elements, in their order, and of these the
    first 150; it starts with an empty buffer when the file is missing,
    cannot be read, or holds corrupted or non-array JSON.  A file that
    holds ["valid", 123, null, "also valid", {}] gives exactly the buffer
    ["valid", "also valid"]. *)
Theorem history_load_as_reference :
  (forall (R : Runtime) (fs : filesystem) (agentDir : jsstring),
      InputHistoryManager.history (InputHistoryManager.create fs agentDir)
      = loaded_reference (lookup (path_join agentDir (js "input-history.json")) fs))
  /\ (let agentDir := js "/home/user/.pi/agent" in
      let path := js "/home/user/.pi/agent/input-history.json" in
      let create := InputHistoryManager.create (R := Reference.runtime) in
      InputHistoryManager.getAll
        (create [(path, File (jsq "['valid', 123, null, 'also valid', {}]"))] agentDir)
      = [js "valid"; js "also valid"]
      /\ InputHistoryManager.getAll (create [] agentDir) = []
      /\ InputHistoryManager.getAll (create [(path, File (js "not valid json"))] agentDir) = []
      /\ InputHistoryManager.getAll (create [(path, File (jsq "{'foo': 'bar'}"))] agentDir) = []).
Proof.
  split.
  - intros R fs agentDir. unfold InputHistoryManager.create, InputHistoryManager.new.
    now rewrite load_history.
  - repeat split; by_computation.
Qed.

(* ================================================================== *)
(** ** Sorting *)
(* ================================================================== *)

Section SortFacts.
Variable A : Type.
Variable comparefn : A -> A -> Z.

Lemma insert_perm (x : A) (l : list A) : Permutation (insert comparefn x l) (x :: l).
Proof.
  induction l as [|y l IH]; simpl; [reflexivity|].
  destruct (0 <? comparefn x y).
  - rewrite IH. apply perm_swap.
  - reflexivity.
Qed.

Lemma Array_sort_perm (l : list A) : Permutation (Array_sort comparefn l) l.
Proof.
  induction l as [|x l IH]; simpl; [reflexivity|].
  rewrite insert_perm. now constructor.
Qed.

(** When the comparator is the difference of a key, the result is in
    descending key order. *)
Variable key : A -> Z.

Lemma Forall_perm (P : A -> Prop) (l l' : list A) :
  Permutation l l' -> Forall P l -> Forall P l'.
Proof.
  intros Hp Hall. rewrite Forall_forall in *. intros x Hx.
  apply Hall. now apply (Permutation_in _ (Permutation_sym Hp)).
Qed.

Lemma filter_perm (f : A -> bool) (l l' : list A) :
  Permutation l l' -> Permutation (filter f l) (filter f l').
Proof.
  induction 1 as [| x l l' Hp IH | x y l | l l' l'' H1 IH1 H2 IH2]; simpl.
  - constructor.
  - destruct (f x); auto.
  - destruct (f x), (f y); auto using perm_swap.
  - now transitivity (filter f l').
Qed.

Lemma insert_descending (x : A) (l : list A) :
  (forall y, In y l -> comparefn x y = key y - key x) ->
  StronglySorted (descending key) l ->
  StronglySorted (descending key) (insert comparefn x l).
Proof.
  induction l as [|y l IH]; intros Hcmp Hs; simpl.
  - repeat constructor.
  - inversion Hs as [|? ? Hs' Hall]; subst.
    destruct (0 <? comparefn x y) eqn:Hlt.
    + apply Z.ltb_lt in Hlt. rewrite (Hcmp y (or_introl eq_refl)) in Hlt.
      constructor.
      * apply IH; [intros; apply Hcmp; now right | assumption].
      * apply (Forall_perm (l := x :: l)); [symmetry; apply insert_perm|].
        constructor; [unfold descending; lia | assumption].
    + apply Z.ltb_ge in Hlt. rewrite (Hcmp y (or_introl eq_refl)) in Hlt.
      constructor; [assumption|].
      constructor; [unfold descending; lia|].
      rewrite Forall_forall in *. intros z Hz. specialize (Hall z Hz).
      unfold descending in *. lia.
Qed.

Lemma Array_sort_descending (l : list A) :
  (forall x y, In x l -> In y l -> comparefn x y = key y - key x) ->
  StronglySorted (descending key) (Array_sort comparefn l).
Proof.
  induction l as [|x l IH]; intros Hcmp; simpl; [constructor|].
  apply insert_descending.
  - intros y Hy. apply Hcmp; [now left | right].
    now apply (Permutation_in _ (Array_sort_perm l)).
  - apply IH. intros; apply Hcmp; now right.
Qed.

(** Two arrangements of the same elements in descending order of
    pairwise different keys are the same list. *)
Lemma descending_unique (l1 l2 : list A) :
  Permutation l1 l2 ->
  NoDup (map key l1) ->
  StronglySorted (descending key) l1 ->
  StronglySorted (descending key) l2 ->
  l1 = l2.
Proof.
  revert l2. induction l1 as [|a l1 IH]; intros l2 Hp Hnd H1 H2.
  - now apply Permutation_nil in Hp.
  - destruct l2 as [|b l2]; [symmetry in Hp; now apply Permutation_nil in Hp|].
    inversion H1 as [|? ? H1' Ha]; subst.
    inversion H2 as [|? ? H2' Hb]; subst.
    inversion Hnd as [|? ? Hnotin Hnd']; subst.
    assert (Heq : a = b).
    { assert (Hin_a : In a (b :: l2)) by (apply (Permutation_in _ Hp); now left).
      assert (Hin_b : In b (a :: l1))
        by (apply (Permutation_in _ (Permutation_sym Hp)); now left).
      destruct Hin_a as [->|Hin_a]; [reflexivity|].
      destruct Hin_b as [->|Hin_b]; [reflexivity|].
      rewrite Forall_forall in Ha, Hb.
      specialize (Ha b Hin_b). specialize (Hb a Hin_a). unfold descending in *.
      exfalso. apply Hnotin. replace (key a) with (key b) by lia.
      now apply in_map. }
    subst b. f_equal. apply IH; auto.
    now apply Permutation_cons_inv in Hp.
Qed.

End SortFacts.

(* ================================================================== *)
(** ** Checkpoint store *)
(* ================================================================== *)

Section CheckpointFacts.
Context {R : Runtime}.
Import Checkpoint.

Lemma loadCheckpoint_total (st : store) (ident : jsstring) :
  exists v, loadCheckpoint st ident = Normal v.
Proof.
  unfold loadCheckpoint. destruct (negb _); eauto.
Qed.

Lemma lookup_perm (p : jsstring) (fs fs' : filesystem) :
  NoDup (map fst fs) -> Permutation fs fs' -> lookup p fs = lookup p fs'.
Proof.
  intros Hnd Hp. induction Hp as [| [q n] l l' Hp IH | [q n] [q' n'] l | l l' l'' H1 IH1 H2 IH2].
  - reflexivity.
  - simpl. inversion Hnd; subst. destruct (str_eqb p q); auto.
  - simpl. destruct (str_eqb p q') eqn:E1, (str_eqb p q) eqn:E2; auto.
    apply str_eqb_eq in E1, E2. subst. inversion Hnd as [|? ? Hnotin _]; subst.
    exfalso. apply Hnotin. now left.
  - rewrite IH1 by assumption. apply IH2.
    apply (Permutation_NoDup (l := map fst l)); [now apply Permutation_map | assumption].
Qed.

Lemma readSummary_perm (fs fs' : filesystem) (file : jsstring) :
  NoDup (map fst fs) -> Permutation fs fs' -> readSummary fs file = readSummary fs' file.
Proof.
  intros Hnd Hp. unfold readSummary, readFileSync. now rewrite (lookup_perm file Hnd Hp).
Qed.

Lemma collect_flat_map (fs : filesystem) (files : list jsstring) :
  collect fs files = flat_map (summary_list fs) files.
Proof.
  induction files as [|f files IH]; simpl; [reflexivity|].
  unfold summary_list at 1. destruct (readSummary fs f); simpl; now rewrite IH.
Qed.

(** The [try] body of the listing reads a summary exactly from the files
    that have one. *)
Lemma readSummary_listed (fs : filesystem) (file : jsstring) :
  match readSummary fs file with Normal s => Some s | Throw _ => None end
  = listed fs file.
Proof.
  unfold readSummary, readFileSync, listed.
  destruct (lookup file fs) as [[content|]|]; cbn [bind]; try reflexivity.
  destruct (JSON_parse content) as [v|e]; cbn [bind]; [|reflexivity].
  destruct v as [| b | m e | t | items | members]; cbn [get_prop bind summary_of];
    try reflexivity.
  destruct (lookup_member (js "stats") members) as [stats|]; cbn [get_prop bind];
    [|reflexivity].
  destruct stats; cbn [get_prop bind]; reflexivity.
Qed.

Lemma endsWith_suffix (s p : jsstring) :
  endsWith s p = true <-> exists a, s = a ++ p.
Proof.
  unfold endsWith, startsWith. split.
  - destruct (strip_prefix (rev p) (rev s)) as [r|] eqn:Hr; [|discriminate].
    intros _. apply strip_prefix_some in Hr. exists (rev r).
    rewrite <- (rev_involutive s), Hr, rev_app_distr, rev_involutive. reflexivity.
  - intros (a & ->). now rewrite rev_app_distr, strip_prefix_app.
Qed.

Lemma has_json_extension_suffix (name : jsstring) :
  has_json_extension name = true <-> exists a, name = a ++ js ".json".
Proof.
  unfold has_json_extension. split.
  - intros Hext. apply andb_true_iff in Hext as [_ Hext]. apply str_eqb_eq in Hext.
    exists (firstn (List.length name - 5) name).
    rewrite <- Hext. symmetry. apply firstn_skipn.
  - intros (a & ->). rewrite length_app. change (List.length (js ".json")) with 5%nat.
    apply andb_true_iff. split; [apply Nat.leb_le; lia|].
    replace (List.length a + 5 - 5)%nat with (List.length a + 0)%nat by lia.
    rewrite skipn_app, skipn_all2 by lia.
    replace (List.length a + 0 - List.length a)%nat with 0%nat by lia.
    apply str_eqb_refl.
Qed.

Lemma endsWith_json (name : jsstring) :
  endsWith name (js ".json") = has_json_extension name.
Proof.
  destruct (has_json_extension name) eqn:Hext.
  - apply endsWith_suffix. now apply has_json_extension_suffix.
  - destruct (endsWith name (js ".json")) eqn:Hends; [|reflexivity].
    apply endsWith_suffix, has_json_extension_suffix in Hends. congruence.
Qed.

Lemma collect_listed (fs : filesystem) :
  collect fs (json_files fs) = listed_summaries fs.
Proof.
  unfold listed_summaries, json_files, readdirSync.
  rewrite (filter_ext _ _ endsWith_json).
  induction (filter has_json_extension (map fst fs)) as [|f files IH]; simpl; [reflexivity|].
  rewrite <- readSummary_listed. destruct (readSummary fs f); simpl; now rewrite IH.
Qed.

Lemma collect_perm (fs fs' : filesystem) :
  NoDup (map fst fs) -> Permutation fs fs' ->
  Permutation (collect fs (json_files fs)) (collect fs' (json_files fs')).
Proof.
  intros Hnd Hp. rewrite !collect_flat_map.
  transitivity (flat_map (summary_list fs) (json_files fs')).
  - apply Permutation_flat_map. unfold json_files, readdirSync.
    apply filter_perm. now apply Permutation_map.
  - apply eq_ind with (x := flat_map (summary_list fs) (json_files fs')); [reflexivity|].
    apply flat_map_ext. intros f. unfold summary_list.
    now rewrite (readSummary_perm f Hnd Hp).
Qed.

Lemma newest_first_key (a b : Summary) :
  time_of a <> None -> time_of b <> None ->
  newest_first a b = time_key b - time_key a.
Proof.
  unfold newest_first, time_key, time_of. intros Ha Hb.
  destruct (Date_getTime (s_timestamp b)), (Date_getTime (s_timestamp a)); congruence.
Qed.

Lemma descending_not_older (l : list Summary) :
  (forall s, In s l -> time_of s <> None) ->
  StronglySorted (descending time_key) l -> newest_first_sorted l.
Proof.
  unfold newest_first_sorted. intros Hv Hs.
  induction Hs as [|a l Hs IH Hall]; constructor.
  - apply IH. intros; apply Hv; now right.
  - rewrite Forall_forall in *. intros b Hb. specialize (Hall b Hb).
    unfold descending, time_key, not_older in *.
    assert (Ha' := Hv a (or_introl eq_refl)). assert (Hb' := Hv b (or_intror Hb)).
    destruct (time_of a) as [ta|], (time_of b) as [tb|]; try congruence.
    exists ta, tb. auto.
Qed.

Lemma not_older_descending (l : list Summary) :
  newest_first_sorted l -> StronglySorted (descending time_key) l.
Proof.
  unfold newest_first_sorted. intros Hs.
  induction Hs as [|a l Hs IH Hall]; constructor; [assumption|].
  rewrite Forall_forall in *. intros b Hb. destruct (Hall b Hb) as (ta & tb & Ha & Hb' & Hle).
  unfold descending, time_key. now rewrite Ha, Hb'.
Qed.

(** A list of three whose first entry is older than its last is not
    sorted newest first. *)
Lemma unsorted_times (l : list Summary) (t1 : Z) (x : option Z) (t3 : Z) :
  map time_of l = [Some t1; x; Some t3] -> t1 < t3 -> ~ newest_first_sorted l.
Proof.
  intros Htimes Hlt Hsorted.
  destruct l as [|a [|b [|c [|d l]]]]; try discriminate.
  injection Htimes as Ha _ Hc.
  unfold newest_first_sorted in Hsorted.
  apply StronglySorted_inv in Hsorted as [_ Hall].
  apply Forall_inv_tail, Forall_inv in Hall.
  destruct Hall as (ta & tc & Hta & Htc & Hle).
  rewrite Ha in Hta. rewrite Hc in Htc. injection Hta as <-. injection Htc as <-. lia.
Qed.

Lemma listCheckpoints_sorted (st : store) :
  (forall s, In s (collect (files_of st) (json_files (files_of st))) -> time_of s <> None) ->
  newest_first_sorted (snd (listCheckpoints st)).
Proof.
  intros Hv. unfold listCheckpoints. simpl.
  apply descending_not_older.
  - intros s Hs. apply Hv. now apply (Permutation_in _ (Array_sort_perm newest_first _)).
  - apply Array_sort_descending. intros x y Hx Hy.
    apply newest_first_key; now apply Hv.
Qed.

End CheckpointFacts.

(** C7.  For every id, [load] answers not-found ([null]) when the
    checkpoint file does not exist, and also when it exists and holds
    malformed JSON; in neither case does it throw. *)
Theorem checkpoint_load_not_found :
  forall (R : Runtime) (st : Checkpoint.store) (ident : jsstring),
    (lookup (Checkpoint.getCheckpointPath ident) (Checkpoint.files_of st) = None
     \/ exists content e,
          lookup (Checkpoint.getCheckpointPath ident) (Checkpoint.files_of st)
          = Some (File content)
          /\ JSON_parse content = Throw e) ->
    Checkpoint.loadCheckpoint st ident = Normal JNull.
Proof.
  intros R st ident [Hmissing | (content & e & Hfile & Hparse)];
    unfold Checkpoint.loadCheckpoint, existsSync, readFileSync.
  - now rewrite Hmissing.
  - rewrite Hfile. simpl. now rewrite Hparse.
Qed.

(** On an absent directory, and on the sample directory with its corrupted
    file. *)
Lemma checkpoint_load_not_found_witness :
  Checkpoint.loadCheckpoint (R := Reference.runtime) None (js "abc234") = Normal JNull
  /\ Checkpoint.loadCheckpoint (R := Reference.runtime) (Some sample_directory) (js "broken")
     = Normal JNull.
Proof.
  split; apply checkpoint_load_not_found.
  - left. by_computation.
  - right. exists (js "{ not json"), SyntaxError. split; by_computation.
Defined.

(** C8.  When [save] is invoked and the current branch has no message
    entries, no checkpoint file is written (the store and the extension
    state are unchanged) and a warning is shown instead. *)
Theorem checkpoint_save_no_messages :
  forall (R : Runtime) (H : CodingAgent) (D : Type) (args : jsstring)
         (ctx : Checkpoint.CommandContext D) (env : Checkpoint.Environment)
         (st : Checkpoint.store) (x : Checkpoint.ExtState),
    toLowerCase (hd [] (split_ws (trim args))) = js "save" ->
    List.length (Checkpoint.messageEntries (Checkpoint.getBranch ctx)) = 0%nat ->
    Checkpoint.checkpoint_command args ctx env st x
    = Normal (st, x, [Checkpoint.ui_notify Checkpoint.NoMessages warning]).
Proof.
  intros R H D args ctx env st x Hsave Hnone.
  unfold Checkpoint.checkpoint_command. rewrite Hsave. simpl.
  unfold Checkpoint.checkpoint_save. now rewrite Hnone.
Qed.

(** On a branch that holds a custom entry and a model change, no message. *)
Lemma checkpoint_save_no_messages_witness :
  let ctx := {| Checkpoint.getBranch := [CustomEntry (js "ralph-state") tt;
                                         OtherEntry (js "model_change")];
                Checkpoint.ctx_cwd := js "/work" |} in
  let x := {| Checkpoint.restoredCheckpoint := JNull; Checkpoint.pendingRestore := None |} in
  Checkpoint.checkpoint_command (R := Reference.runtime) (H := Reference.agent)
    (js "  Save before the refactoring ") ctx sample_environment (Some sample_directory) x
  = Normal (Some sample_directory, x, [Checkpoint.ui_notify Checkpoint.NoMessages warning]).
Proof.
  intros ctx x. apply checkpoint_save_no_messages; by_computation.
Defined.

(** C9, as stated, on two directories.  A file whose text parses as JSON
    is skipped all the same when the parsed value is [null] or an object
    without [stats].  And a directory that enumerates a checkpoint of
    January, a checkpoint without timestamp and a checkpoint of June is
    listed in that order, June after January, which is not by timestamp
    descending; enumerated backwards it is listed backwards. *)
Lemma checkpoint_list_undated_unsorted :
  let listing (fs : filesystem) :=
    map Checkpoint.s_id (snd (Checkpoint.listCheckpoints (R := Reference.runtime) (Some fs))) in
  let draft := jsq "{'id': 'draft', 'timestamp': '2024-02-01T00:00:00.000Z'}" in
  (Reference.json_parse draft
   = Normal (JObj [(js "id", JStr (js "draft"));
                   (js "timestamp", JStr (js "2024-02-01T00:00:00.000Z"))])
   /\ listing [(js "draft.json", File draft)] = []
   /\ Reference.json_parse (js "null") = Normal JNull
   /\ listing [(js "empty.json", File (js "null"))] = [])
  /\ listing undated_directory
     = [Some (JStr (js "january")); Some (JStr (js "undated")); Some (JStr (js "june"))]
  /\ map (time_of (R := Reference.runtime))
       (snd (Checkpoint.listCheckpoints (R := Reference.runtime) (Some undated_directory)))
     = [Some 1704441600000; None; Some 1717243200000]
  /\ ~ newest_first_sorted (R := Reference.runtime)
         (snd (Checkpoint.listCheckpoints (R := Reference.runtime) (Some undated_directory)))
  /\ listing (rev undated_directory)
     = [Some (JStr (js "june")); Some (JStr (js "undated")); Some (JStr (js "january"))].
Proof.
  intros listing draft.
  split; [split; [|split; [|split]]; by_computation|].
  split; [by_computation|].
  split; [by_computation|].
  split; [|by_computation].
  apply (@unsorted_times Reference.runtime _ 1704441600000 None 1717243200000);
    [by_computation | lia].
Qed.

(** C9, amended.  [list] returns one summary for each checkpoint file (an
    entry of the directory whose name ends in [.json]) that is a regular
    file whose text parses as JSON to an object with a [stats] member
    other than [null]; every other entry is skipped.  Provided the
    timestamp of every listed checkpoint is a date, the summaries are
    sorted by timestamp, newest first, whatever the order in which the
    file system enumerates the files: two enumerations of the same
    directory give the same summaries, both sorted, and the same list when
    no two timestamps are equal. *)
Theorem checkpoint_list_newest_first :
  forall (R : Runtime) (st st' : Checkpoint.store),
    let fs := Checkpoint.files_of st in
    NoDup (map fst fs) ->
    Permutation fs (Checkpoint.files_of st') ->
    let checkpoints := snd (Checkpoint.listCheckpoints st) in
    let checkpoints' := snd (Checkpoint.listCheckpoints st') in
    Permutation checkpoints (listed_summaries fs)
    /\ (forall s,
           In s checkpoints <->
           exists name content v,
             has_json_extension name = true
             /\ lookup name fs = Some (File content)
             /\ JSON_parse content = Normal v
             /\ summary_of v = Some s)
    /\ Permutation checkpoints' checkpoints
    /\ ((forall s, In s checkpoints -> time_of s <> None) ->
        newest_first_sorted checkpoints
        /\ newest_first_sorted checkpoints'
        /\ (NoDup (map time_key checkpoints) -> checkpoints' = checkpoints)).
Proof.
  intros R st st' fs Hnd Hp checkpoints checkpoints'.
  assert (Hsort : Permutation checkpoints
                    (Checkpoint.collect fs (Checkpoint.json_files fs))).
  { unfold checkpoints, Checkpoint.listCheckpoints. simpl. apply Array_sort_perm. }
  assert (Hcc : Permutation checkpoints' checkpoints).
  { unfold checkpoints, checkpoints', Checkpoint.listCheckpoints. simpl.
    rewrite !Array_sort_perm. symmetry. now apply collect_perm. }
  assert (Hlisted : Permutation checkpoints (listed_summaries fs)).
  { now rewrite <- collect_listed. }
  split; [exact Hlisted|].
  split.
  { intros s. split.
    - intros Hs. apply (Permutation_in _ Hlisted) in Hs.
      unfold listed_summaries in Hs. apply in_flat_map in Hs as (name & Hname & Hs).
      apply filter_In in Hname as [_ Hext].
      unfold listed in Hs.
      destruct (lookup name fs) as [[content|]|] eqn:Hfile; try contradiction.
      destruct (JSON_parse content) as [v|e] eqn:Hparse; try contradiction.
      destruct (summary_of v) as [s0|] eqn:Hsum; try contradiction.
      destruct Hs as [<- | []]. now exists name, content, v.
    - intros (name & content & v & Hext & Hfile & Hparse & Hsum).
      apply (Permutation_in _ (Permutation_sym Hlisted)).
      unfold listed_summaries. apply in_flat_map. exists name. split.
      + apply filter_In. split; [|exact Hext].
        clear - Hfile. induction fs as [|[q n] rest IH]; [discriminate|].
        simpl in *. destruct (str_eqb name q) eqn:Hq.
        * apply str_eqb_eq in Hq. now left.
        * right. now apply IH.
      + unfold listed. rewrite Hfile, Hparse, Hsum. now left. }
  split; [exact Hcc|].
  intros Hdates.
  assert (Hs : newest_first_sorted checkpoints).
  { apply listCheckpoints_sorted. intros s Hs. apply Hdates.
    apply (Permutation_in _ (Permutation_sym Hsort)). exact Hs. }
  assert (Hs' : newest_first_sorted checkpoints').
  { apply listCheckpoints_sorted. intros s Hs'. apply Hdates.
    apply (Permutation_in _ Hcc). unfold checkpoints', Checkpoint.listCheckpoints. simpl.
    apply (Permutation_in _ (Permutation_sym (Array_sort_perm _ _))). exact Hs'. }
  repeat split; auto.
  intros Hdistinct. symmetry.
  apply (descending_unique (key := time_key)); auto using not_older_descending.
  now symmetry.
Qed.

Lemma archive_directory_names : NoDup (map fst archive_directory).
Proof.
  vm_compute. repeat constructor; simpl; intuition discriminate.
Qed.

(** On a directory that holds two checkpoints, a copy of one of them under
    a name that does not end in [.json], a corrupted file, a file of
    notes and a file of JSON text without [stats]: enumerated forwards and
    backwards, the two checkpoints are listed, the newer one first. *)
Lemma checkpoint_list_newest_first_witness :
  let listing (fs : filesystem) :=
    map Checkpoint.s_id (snd (Checkpoint.listCheckpoints (R := Reference.runtime) (Some fs))) in
  listing (rev archive_directory) = listing archive_directory
  /\ listing archive_directory = [Some (JStr (js "xyz789")); Some (JStr (js "abc234"))]
  /\ newest_first_sorted (R := Reference.runtime)
       (snd (Checkpoint.listCheckpoints (R := Reference.runtime) (Some archive_directory)))
  /\ Permutation
       (snd (Checkpoint.listCheckpoints (R := Reference.runtime) (Some archive_directory)))
       (listed_summaries (R := Reference.runtime) archive_directory).
Proof.
  intros listing.
  pose proof (@checkpoint_list_newest_first Reference.runtime
              (Some archive_directory) (Some (rev archive_directory))) as Hthm.
  cbv zeta in Hthm.
  specialize (Hthm archive_directory_names (Permutation_rev _)).
  destruct Hthm as (Hlisted & _ & _ & Hordered).
  assert (Hdates : forall s,
            In s (snd (Checkpoint.listCheckpoints (R := Reference.runtime)
                         (Some archive_directory))) ->
            time_of (R := Reference.runtime) s <> None).
  { intros s Hs. vm_compute in Hs.
    destruct Hs as [<- | [<- | []]]; vm_compute; discriminate. }
  destruct (Hordered Hdates) as (Hsorted & _ & Hsame).
  split; [|split; [|split]].
  - subst listing. cbv beta. apply (f_equal (map Checkpoint.s_id)). apply Hsame.
    vm_compute. repeat constructor; simpl; intuition discriminate.
  - by_computation.
  - exact Hsorted.
  - exact Hlisted.
Defined.

(* ================================================================== *)
(** ** The loop controller *)
(* ================================================================== *)

Section RalphFacts.
Context {H : CodingAgent}.
Import Ralph.

Lemma agent_end_max (messages : list AgentMessage) (ctx : ExtensionContext) (now : Z)
    (st : RalphState) :
  active st = true -> pendingHandoff st = false -> max_reached st = true ->
  agent_end messages ctx now (Some st) = stopped_at_max st now.
Proof.
  intros Ha Hp Hm. unfold agent_end, max_reached in *. now rewrite Ha, Hp, Hm.
Qed.

Lemma agent_end_idle (messages : list AgentMessage) (ctx : ExtensionContext) (now : Z) :
  agent_end messages ctx now None = (None, []).
Proof. reflexivity. Qed.

Lemma run_idle (events : list TurnEnd) : run events None = (None, []).
Proof.
  induction events as [|e events IH]; simpl; [reflexivity|]. now rewrite IH.
Qed.

Lemma updateStatus_status (state : option RalphState) (ctx : ExtensionContext) :
  exists text, updateStatus state ctx = ui_setStatus text.
Proof.
  unfold updateStatus. destruct state as [st|]; [destruct (active st)|]; eauto.
Qed.

Lemma continue_loop_result (ctx : ExtensionContext) (st : RalphState) :
  fst (continue_loop ctx st) = Some (next_iteration st)
  /\ user_messages (snd (continue_loop ctx st)) = [prompt st]
  /\ custom_messages "ralph-context-warning" (snd (continue_loop ctx st)) = [].
Proof.
  unfold continue_loop.
  destruct (updateStatus_status (Some (next_iteration st)) ctx) as (text & ->).
  repeat split; reflexivity.
Qed.

(** A turn end that passes all checks continues the loop. *)
Lemma agent_end_continue (messages : list AgentMessage) (ctx : ExtensionContext) (now : Z)
    (st : RalphState) :
  active st = true -> pendingHandoff st = false -> max_reached st = false ->
  promise_fulfilled st messages = false -> handoff_due st ctx = false ->
  exists effects,
    agent_end messages ctx now (Some st) = (Some (next_iteration st), effects)
    /\ user_messages effects = [prompt st].
Proof.
  intros Ha Hp Hm Hf Hd. unfold agent_end, max_reached, handoff_due in *.
  rewrite Ha, Hp, Hm, Hf. cbn [negb].
  destruct (continue_loop_result ctx st) as (Hfst & Hmsg & _).
  destruct (continue_loop ctx st) as [s' effects] eqn:Hc. cbn [fst snd] in Hfst, Hmsg.
  subst s'.
  destruct (getContextUsagePercent ctx) as [p|]; [|eauto].
  destruct (num_ge p (contextThreshold st)); [|eauto].
  cbn [andb] in Hd. destruct (planFile st) as [plan|]; cbn [truthy_opt] in Hd.
  - rewrite Hd. eexists; split; [reflexivity|]. exact Hmsg.
  - eexists; split; [reflexivity|]. exact Hmsg.
Qed.

Lemma promise_fulfilled_none (st : RalphState) (messages : list AgentMessage) :
  completionPromise st = None -> promise_fulfilled st messages = false.
Proof. unfold promise_fulfilled. now intros ->. Qed.

(** [k] turn ends below the maximum, none of them asking for a handoff:
    the loop is still active, [k] iterations further, and has resubmitted
    the prompt [k] times. *)
Lemma run_below_max (events : list TurnEnd) :
  forall st : RalphState,
    active st = true -> pendingHandoff st = false -> completionPromise st = None ->
    0 < maxIterations st ->
    totalIterations st + Z.of_nat (List.length events) <= maxIterations st ->
    (forall e, In e events -> handoff_due st (turn_ctx e) = false) ->
    exists st' effects,
      run events (Some st) = (Some st', effects)
      /\ active st' = true /\ pendingHandoff st' = false
      /\ completionPromise st' = None
      /\ maxIterations st' = maxIterations st
      /\ prompt st' = prompt st
      /\ totalIterations st' = totalIterations st + Z.of_nat (List.length events)
      /\ user_messages effects = repeat (prompt st) (List.length events).
Proof.
  induction events as [|e events IH]; intros st Ha Hp Hc Hmax Hlen Hdue.
  - exists st, []. simpl. repeat split; auto. lia.
  - simpl List.length in *.
    destruct (agent_end_continue (turn_messages e) (turn_ctx e) (turn_now e) st)
      as (eff1 & Hstep & Hmsg); auto.
    + unfold max_reached. apply andb_false_iff. right. apply Z.leb_gt. lia.
    + now apply promise_fulfilled_none.
    + apply Hdue. now left.
    + destruct (IH (next_iteration st)) as (st' & eff2 & Hrun & Ha' & Hp' & Hc' & Hm' & Hpr' & Ht' & Hu');
        auto.
      * cbn [next_iteration totalIterations maxIterations]. lia.
      * intros e' He'. specialize (Hdue e' (or_intror He')).
        unfold handoff_due in *. exact Hdue.
      * exists st', (eff1 ++ eff2). cbn [run]. rewrite Hstep, Hrun.
        repeat split; auto.
        -- rewrite Ht'. cbn [next_iteration totalIterations]. lia.
        -- unfold user_messages in *. rewrite flat_map_app, Hmsg, Hu'. reflexivity.
Qed.

Lemma ralph_command_start (args : jsstring) (ctx : ExtensionContext) (now : Z)
    (st : RalphState) (effects : list Effect) :
  ralph_command args ctx now None = (Some st, effects) ->
  active st = true /\ pendingHandoff st = false
  /\ iteration st = 1 /\ totalIterations st = 1 /\ sessionCount st = 1
  /\ prompt st = p_prompt (parseArgs args)
  /\ maxIterations st = p_maxIterations (parseArgs args)
  /\ completionPromise st = p_completionPromise (parseArgs args)
  /\ planFile st = p_planFile (parseArgs args)
  /\ contextThreshold st = p_contextThreshold (parseArgs args)
  /\ user_messages effects = [prompt st].
Proof.
  unfold ralph_command. destruct (_ || _); [discriminate|]. simpl.
  destruct (truthy_opt (p_error (parseArgs args))); [discriminate|].
  destruct (negb (truthy (p_prompt (parseArgs args)))); [discriminate|].
  intros Heq. injection Heq as <- <-. simpl. repeat split; reflexivity.
Qed.

End RalphFacts.

Lemma run_app {H : CodingAgent} (events later : list TurnEnd)
    (state : option Ralph.RalphState) :
  run (events ++ later) state
  = (fst (run later (fst (run events state))),
     snd (run events state) ++ snd (run later (fst (run events state)))).
Proof.
  revert state. induction events as [|e events IH]; intros state.
  - cbn [app run fst snd]. now destruct (run later state).
  - cbn [app run]. destruct (Ralph.agent_end _ _ _ state) as [state1 effects1].
    rewrite IH. destruct (run events state1) as [state2 effects2]. cbn [fst snd].
    now rewrite app_assoc.
Qed.

(** C1.  On a turn end of an active loop with no handoff pending, if
    max-iterations is positive and the cumulative iteration count has
    reached it, the loop state is cleared and the prompt is not sent again.
    A loop started with a maximum and no completion tag stays active and
    resubmits its prompt at every turn end (none asking for a handoff)
    while the count is below the maximum, the count going up by one each
    time; at the turn end that finds the count equal to the maximum it
    stops, and no later turn end sends anything.  So a loop started with
    max-iterations 3 and no completion tag, at count 1, resubmits the
    prompt at the first two turn ends (counts 2 and 3), stops at the third,
    which finds the count at 3, and never resubmits after that. *)
Theorem loop_stops_at_max_iterations :
  forall (H : CodingAgent),
    (forall messages ctx now st,
        Ralph.active st = true -> Ralph.pendingHandoff st = false ->
        0 < Ralph.maxIterations st ->
        Ralph.maxIterations st <= Ralph.totalIterations st ->
        Ralph.agent_end messages ctx now (Some st) = stopped_at_max st now
        /\ user_messages (snd (stopped_at_max st now)) = [])
    /\ (forall args ctx0 now0 st0 effects0 events,
          Ralph.ralph_command args ctx0 now0 None = (Some st0, effects0) ->
          0 < Ralph.maxIterations st0 ->
          Ralph.completionPromise st0 = None ->
          Z.of_nat (List.length events) < Ralph.maxIterations st0 ->
          (forall e, In e events -> handoff_due st0 (turn_ctx e) = false) ->
          Ralph.totalIterations st0 = 1
          /\ user_messages effects0 = [Ralph.prompt st0]
          /\ exists st effects,
               run events (Some st0) = (Some st, effects)
               /\ Ralph.active st = true
               /\ Ralph.totalIterations st = 1 + Z.of_nat (List.length events)
               /\ user_messages effects = repeat (Ralph.prompt st0) (List.length events)
               /\ (Ralph.totalIterations st = Ralph.maxIterations st0 ->
                   forall e later,
                     run (e :: later) (Some st) = stopped_at_max st (turn_now e)))
    /\ (forall args ctx0 now0 st0 effects0 e1 e2 e3 later,
          Ralph.ralph_command args ctx0 now0 None = (Some st0, effects0) ->
          Ralph.maxIterations st0 = 3 ->
          Ralph.completionPromise st0 = None ->
          handoff_due st0 (turn_ctx e1) = false ->
          handoff_due st0 (turn_ctx e2) = false ->
          exists st effects,
            run [e1; e2] (Some st0) = (Some st, effects)
            /\ Ralph.active st = true
            /\ Ralph.totalIterations st = 3
            /\ user_messages effects = [Ralph.prompt st0; Ralph.prompt st0]
            /\ run (e3 :: later) (Some st) = stopped_at_max st (turn_now e3)
            /\ fst (run ([e1; e2] ++ e3 :: later) (Some st0)) = None
            /\ user_messages (snd (run ([e1; e2] ++ e3 :: later) (Some st0)))
               = [Ralph.prompt st0; Ralph.prompt st0]).
Proof.
  intros H.
  assert (Hstep : forall messages ctx now st,
             Ralph.active st = true -> Ralph.pendingHandoff st = false ->
             0 < Ralph.maxIterations st ->
             Ralph.maxIterations st <= Ralph.totalIterations st ->
             Ralph.agent_end messages ctx now (Some st) = stopped_at_max st now
             /\ user_messages (snd (stopped_at_max st now)) = []).
  { intros messages ctx now st Ha Hp Hpos Hmax. split; [|reflexivity].
    apply agent_end_max; auto. unfold max_reached.
    apply andb_true_iff. split; [now apply Z.ltb_lt | now apply Z.leb_le]. }
  assert (Hrun : forall args ctx0 now0 st0 effects0 events,
             Ralph.ralph_command args ctx0 now0 None = (Some st0, effects0) ->
             0 < Ralph.maxIterations st0 ->
             Ralph.completionPromise st0 = None ->
             Z.of_nat (List.length events) < Ralph.maxIterations st0 ->
             (forall e, In e events -> handoff_due st0 (turn_ctx e) = false) ->
             Ralph.totalIterations st0 = 1
             /\ user_messages effects0 = [Ralph.prompt st0]
             /\ exists st effects,
                  run events (Some st0) = (Some st, effects)
                  /\ Ralph.active st = true
                  /\ Ralph.totalIterations st = 1 + Z.of_nat (List.length events)
                  /\ user_messages effects = repeat (Ralph.prompt st0) (List.length events)
                  /\ (Ralph.totalIterations st = Ralph.maxIterations st0 ->
                      forall e later,
                        run (e :: later) (Some st) = stopped_at_max st (turn_now e))).
  { intros args ctx0 now0 st0 effects0 events Hstart Hpos Hnone Hlen Hdue.
    destruct (@ralph_command_start H args ctx0 now0 st0 effects0 Hstart)
      as (Ha & Hp & _ & Ht & _ & _ & _ & _ & _ & _ & Hu).
    split; [assumption|]. split; [assumption|].
    destruct (@run_below_max H events st0)
      as (st & effects & Hevents & Ha' & Hp' & _ & Hm' & _ & Ht' & Hu'); auto; [lia|].
    exists st, effects. repeat split; auto.
    - lia.
    - intros Hreached e later. cbn [run].
      rewrite agent_end_max; auto.
      + unfold stopped_at_max. now rewrite run_idle.
      + unfold max_reached. rewrite Hm'.
        apply andb_true_iff. split; [now apply Z.ltb_lt | apply Z.leb_le; lia]. }
  split; [exact Hstep|]. split; [exact Hrun|].
  intros args ctx0 now0 st0 effects0 e1 e2 e3 later Hstart Hmax Hnone Hdue1 Hdue2.
  destruct (Hrun args ctx0 now0 st0 effects0 [e1; e2] Hstart)
    as (_ & _ & st & effects & Hevents & Ha & Ht & Hu & Hstop);
    try (rewrite Hmax; reflexivity); try assumption.
  { intros e [<- | [<- | []]]; assumption. }
  assert (Hstopped : run (e3 :: later) (Some st) = stopped_at_max st (turn_now e3)).
  { apply Hstop. rewrite Ht, Hmax. reflexivity. }
  exists st, effects. repeat split; auto.
  - rewrite run_app, Hevents. cbn [fst snd]. now rewrite Hstopped.
  - rewrite run_app, Hevents. cbn [fst snd]. rewrite Hstopped.
    unfold user_messages in *. rewrite flat_map_app, Hu. reflexivity.
Qed.

(** A loop started with [--max-iterations 3] and no completion tag. *)
Lemma loop_stops_at_max_iterations_witness :
  let start :=
    Ralph.ralph_command (H := Reference.agent)
      (js "Fix the failing tests --max-iterations 3") (sample_ctx 20000) 1000 None in
  let events := [sample_turn "working" 40000 2000; sample_turn "still working" 60000 3000] in
  exists st0 effects0 st effects,
    start = (Some st0, effects0)
    /\ Ralph.maxIterations st0 = 3
    /\ Ralph.totalIterations st0 = 1
    /\ user_messages effects0 = [js "Fix the failing tests"]
    /\ run (H := Reference.agent) events (Some st0) = (Some st, effects)
    /\ Ralph.totalIterations st = 3
    /\ user_messages effects = [js "Fix the failing tests"; js "Fix the failing tests"]
    /\ run (H := Reference.agent)
         [sample_turn "working on" 80000 4000; sample_turn "working on" 90000 5000] (Some st)
       = stopped_at_max st 4000.
Proof.
  intros start events.
  destruct start as [[st0|] effects0] eqn:Hstart; [|vm_compute in Hstart; discriminate].
  assert (Hst0 : Some st0 = fst start) by (now rewrite Hstart).
  vm_compute in Hst0. injection Hst0 as Hst0.
  destruct (proj1 (proj2 (loop_stops_at_max_iterations Reference.agent))
              (js "Fix the failing tests --max-iterations 3") (sample_ctx 20000) 1000
              st0 effects0 events Hstart)
    as (Ht0 & Hu0 & st & effects & Hrun & _ & Ht & Hu & Hstop).
  - rewrite Hst0. reflexivity.
  - rewrite Hst0. reflexivity.
  - rewrite Hst0. reflexivity.
  - intros e [<- | [<- | []]]; rewrite Hst0; by_computation.
  - exists st0, effects0, st, effects.
    repeat split; auto.
    + rewrite Hst0. reflexivity.
    + rewrite Hu0, Hst0. reflexivity.
    + rewrite Hu, Hst0. reflexivity.
    + apply Hstop. rewrite Ht, Hst0. reflexivity.
Defined.

(** C3.  On a turn end of an active loop that has no handoff pending, has
    not reached max-iterations and finds no completion tag, when the
    context usage is at least the threshold: with a progress file
    configured the pending-handoff flag is set (it is true in the state
    after the event, which is otherwise the state before it), that state is
    persisted, the agent is asked to update the file, the counters stay as
    they are and the only user message sent is that request, not the
    prompt; with no progress file the controller warns and continues as
    usual, both counters one higher, no handoff pending, and the original
    prompt sent again. *)
Theorem context_threshold_reached :
  forall (H : CodingAgent) (messages : list AgentMessage) (ctx : Ralph.ExtensionContext)
         (now : Z) (st : Ralph.RalphState) (percent : jsnum),
    Ralph.active st = true ->
    Ralph.pendingHandoff st = false ->
    max_reached st = false ->
    Ralph.promise_fulfilled st messages = false ->
    Ralph.getContextUsagePercent ctx = Some percent ->
    num_ge percent (Ralph.contextThreshold st) = true ->
    (forall plan,
        Ralph.planFile st = Some plan -> truthy plan = true ->
        exists st',
          Ralph.agent_end messages ctx now (Some st)
          = (Some st',
             [Ralph.appendEntry (Some st');
              Ralph.sendMessage (js "ralph-context-warning")
                (Ralph.UpdateMessage percent (Ralph.contextThreshold st) plan);
              Ralph.sendUserMessage
                (js "Update " ++ plan
                 ++ js " with current progress before session handoff.")])
          /\ st' = Ralph.with_pending st true
          /\ Ralph.pendingHandoff st' = true
          /\ Ralph.active st' = true
          /\ Ralph.iteration st' = Ralph.iteration st
          /\ Ralph.totalIterations st' = Ralph.totalIterations st
          /\ Ralph.sessionCount st' = Ralph.sessionCount st
          /\ Ralph.prompt st' = Ralph.prompt st
          /\ Ralph.maxIterations st' = Ralph.maxIterations st
          /\ Ralph.completionPromise st' = Ralph.completionPromise st
          /\ Ralph.planFile st' = Some plan
          /\ Ralph.contextThreshold st' = Ralph.contextThreshold st
          /\ Ralph.startedAt st' = Ralph.startedAt st)
    /\ (truthy_opt (Ralph.planFile st) = false ->
        exists status,
          Ralph.agent_end messages ctx now (Some st)
          = (Some (Ralph.next_iteration st),
             [Ralph.ui_notify (Ralph.ContextWarning percent) warning;
              Ralph.appendEntry (Some (Ralph.next_iteration st));
              Ralph.ui_setStatus status;
              Ralph.sendMessage (js "ralph-iteration")
                (Ralph.IterationMessage (Ralph.totalIterations st + 1)
                   (Ralph.maxIterations st)
                   (if truthy_opt (Ralph.completionPromise st)
                    then Ralph.completionPromise st else None));
              Ralph.sendUserMessage (Ralph.prompt st)])
          /\ Ralph.iteration (Ralph.next_iteration st) = Ralph.iteration st + 1
          /\ Ralph.totalIterations (Ralph.next_iteration st) = Ralph.totalIterations st + 1
          /\ Ralph.pendingHandoff (Ralph.next_iteration st) = false
          /\ Ralph.active (Ralph.next_iteration st) = true).
Proof.
  intros H messages ctx now st percent Ha Hp Hm Hf Hpercent Hge.
  unfold max_reached in Hm.
  split.
  - intros plan Hplan Htruthy. exists (Ralph.with_pending st true).
    split.
    { unfold Ralph.agent_end.
      rewrite Ha, Hp, Hm, Hf, Hpercent, Hge, Hplan, Htruthy. reflexivity. }
    cbn [Ralph.with_pending Ralph.pendingHandoff Ralph.active Ralph.iteration
         Ralph.totalIterations Ralph.sessionCount Ralph.prompt Ralph.maxIterations
         Ralph.completionPromise Ralph.planFile Ralph.contextThreshold Ralph.startedAt].
    repeat split; assumption.
  - intros Hnoplan. unfold Ralph.agent_end.
    rewrite Ha, Hp, Hm, Hf, Hpercent, Hge. cbn [negb].
    unfold Ralph.continue_loop.
    destruct (updateStatus_status (Some (Ralph.next_iteration st)) ctx) as (status & ->).
    exists status. split; [|repeat split; assumption].
    destruct (Ralph.planFile st) as [plan|]; [|reflexivity].
    cbn [truthy_opt] in Hnoplan. rewrite Hnoplan. reflexivity.
Qed.

(** At 75 percent with a threshold of 70, with and without a plan file. *)
Lemma context_threshold_reached_witness :
  let ctx := sample_ctx 150000 in
  let turn := [assistant_says "half way" 150000] in
  let with_plan := sample_state None (Some (js "PLAN.md")) in
  let without_plan := sample_state None None in
  Ralph.getContextUsagePercent (H := Reference.agent) ctx = Some (JInt 75)
  /\ fst (Ralph.agent_end (H := Reference.agent) turn ctx 5000 (Some with_plan))
     = Some (Ralph.with_pending with_plan true)
  /\ option_map Ralph.pendingHandoff
       (fst (Ralph.agent_end (H := Reference.agent) turn ctx 5000 (Some with_plan)))
     = Some true
  /\ option_map Ralph.totalIterations
       (fst (Ralph.agent_end (H := Reference.agent) turn ctx 5000 (Some with_plan)))
     = Some 2
  /\ user_messages (snd (Ralph.agent_end (H := Reference.agent) turn ctx 5000 (Some with_plan)))
     = [js "Update PLAN.md with current progress before session handoff."]
  /\ fst (Ralph.agent_end (H := Reference.agent) turn ctx 5000 (Some without_plan))
     = Some (Ralph.next_iteration without_plan)
  /\ user_messages (snd (Ralph.agent_end (H := Reference.agent) turn ctx 5000
                           (Some without_plan)))
     = [js "Fix the failing tests"].
Proof.
  intros ctx turn with_plan without_plan.
  assert (Hpercent : Ralph.getContextUsagePercent (H := Reference.agent) ctx = Some (JInt 75))
    by (by_computation).
  destruct (@context_threshold_reached Reference.agent turn ctx 5000 with_plan (JInt 75))
    as (Hplan & _); try (by_computation).
  destruct (@context_threshold_reached Reference.agent turn ctx 5000 without_plan (JInt 75))
    as (_ & Hnoplan); try (by_computation).
  destruct (Hplan (js "PLAN.md") eq_refl eq_refl)
    as (st' & Hhandoff & Hst' & Hpending & _ & _ & Htotal & _).
  destruct (Hnoplan eq_refl) as (status & Hcontinue & _).
  rewrite Hhandoff, Hcontinue. cbn [fst snd option_map]. rewrite Hpending, Htotal.
  subst st'. repeat split; try assumption; by_computation.
Defined.

Lemma agent_end_unknown_usage {H : CodingAgent} (messages : list AgentMessage)
    (ctx : Ralph.ExtensionContext) (now : Z) (state : option Ralph.RalphState) :
  Ralph.getContextUsagePercent ctx = None ->
  custom_messages "ralph-context-warning" (snd (Ralph.agent_end messages ctx now state)) = []
  /\ forall st st',
       state = Some st -> fst (Ralph.agent_end messages ctx now state) = Some st' ->
       Ralph.pendingHandoff st' = Ralph.pendingHandoff st.
Proof.
  intros Hnone. unfold Ralph.agent_end. destruct state as [s|]; [|split; [reflexivity | discriminate]].
  destruct (negb (Ralph.active s)).
  { split; [reflexivity|]. intros st st' [= <-] [= <-]. reflexivity. }
  destruct (Ralph.pendingHandoff s) eqn:Hp.
  { split; [reflexivity|]. intros st st' [= <-] [= <-]. reflexivity. }
  destruct (_ && _).
  { split; [reflexivity | intros st st' _; discriminate]. }
  destruct (Ralph.promise_fulfilled s messages).
  { split; [reflexivity | intros st st' _; discriminate]. }
  rewrite Hnone.
  destruct (continue_loop_result ctx s) as (Hfst & _ & Hcustom).
  split; [exact Hcustom|].
  intros st st' [= <-]. rewrite Hfst. intros [= <-]. cbn. now rewrite Hp.
Qed.

(** C4.  The context-usage percentage is
    round(contextTokensUsed / modelContextWindow * 100), in the arithmetic
    of the language and with no clamping: a value over 100 is possible and
    counts as at least the threshold.  When the model or the usage
    figures of the last assistant turn are absent the percentage is
    unknown ([null]) and that turn end never triggers a threshold
    handoff. *)
Theorem context_usage_percent :
  (exists (H : CodingAgent) (ctx : Ralph.ExtensionContext) (z : Z),
     Ralph.getContextUsagePercent ctx = Some (JInt z) /\ 100 < z)
  /\
  forall (H : CodingAgent) (ctx : Ralph.ExtensionContext),
    (forall m u,
        Ralph.model ctx = Some m ->
        getLastAssistantUsage (Ralph.getEntries ctx) = Some u ->
        Ralph.getContextUsagePercent ctx
        = Some (Math_round
                  (PrimFloat.mul
                     (PrimFloat.div (calculateContextTokens u) (Ralph.contextWindow m))
                     100)))
    /\ (forall z t, num_ge (JInt z) t = (t <=? z))
    /\ (forall z st plan messages now,
          Ralph.getContextUsagePercent ctx = Some (JInt z) ->
          100 < z -> Ralph.contextThreshold st <= 100 ->
          Ralph.active st = true -> Ralph.pendingHandoff st = false ->
          max_reached st = false -> Ralph.promise_fulfilled st messages = false ->
          Ralph.planFile st = Some plan -> truthy plan = true ->
          fst (Ralph.agent_end messages ctx now (Some st))
          = Some (Ralph.with_pending st true))
    /\ (Ralph.model ctx = None \/ getLastAssistantUsage (Ralph.getEntries ctx) = None ->
        Ralph.getContextUsagePercent ctx = None
        /\ forall messages now state,
             custom_messages "ralph-context-warning"
               (snd (Ralph.agent_end messages ctx now state)) = []
             /\ forall st st',
                  state = Some st ->
                  fst (Ralph.agent_end messages ctx now state) = Some st' ->
                  Ralph.pendingHandoff st' = Ralph.pendingHandoff st).
Proof.
  split.
  { exists Reference.agent, (sample_ctx 300000), 150. split; by_computation. }
  intros H ctx. split; [|split; [|split; [|intros Habsent]]].
  - intros m u Hm Hu. unfold Ralph.getContextUsagePercent. now rewrite Hm, Hu.
  - reflexivity.
  - intros z st plan messages now Hpercent Hz Ht Ha Hp Hmax Hf Hplan Htruthy.
    assert (Hge : num_ge (JInt z) (Ralph.contextThreshold st) = true)
      by (simpl; apply Z.leb_le; lia).
    unfold max_reached in Hmax. unfold Ralph.agent_end.
    rewrite Ha, Hp, Hmax, Hf, Hpercent, Hge, Hplan, Htruthy. reflexivity.
  - assert (Hnone : Ralph.getContextUsagePercent ctx = None).
    { unfold Ralph.getContextUsagePercent.
      destruct Habsent as [-> | Hu]; [reflexivity|].
      destruct (Ralph.model ctx); [now rewrite Hu | reflexivity]. }
    split; [exact Hnone|].
    intros messages now state. now apply agent_end_unknown_usage.
Qed.

(** At 150 percent, and with the model or the usage figures absent. *)
Lemma context_usage_percent_witness :
  let over := sample_ctx 300000 in
  let no_model := {| Ralph.model := None; Ralph.getEntries := Ralph.getEntries over |} in
  let no_usage := {| Ralph.model := Ralph.model over; Ralph.getEntries := [] |} in
  let st := sample_state None (Some (js "PLAN.md")) in
  let turn := [assistant_says "half way" 300000] in
  Ralph.getContextUsagePercent (H := Reference.agent) over = Some (JInt 150)
  /\ fst (Ralph.agent_end (H := Reference.agent) turn over 5000 (Some st))
     = Some (Ralph.with_pending st true)
  /\ Ralph.getContextUsagePercent (H := Reference.agent) no_model = None
  /\ Ralph.getContextUsagePercent (H := Reference.agent) no_usage = None
  /\ fst (Ralph.agent_end (H := Reference.agent) turn no_usage 5000 (Some st))
     = Some (Ralph.next_iteration st).
Proof.
  intros over no_model no_usage st turn.
  destruct (proj2 context_usage_percent Reference.agent over) as (Hround & _ & Hover & _).
  destruct (proj2 context_usage_percent Reference.agent no_model)
    as (_ & _ & _ & Hno_model).
  destruct (proj2 context_usage_percent Reference.agent no_usage)
    as (_ & _ & _ & Hno_usage).
  assert (H150 : Ralph.getContextUsagePercent (H := Reference.agent) over = Some (JInt 150)).
  { rewrite (Hround {| Ralph.contextWindow := 200000 |} {| tokens := 300000 |});
      by_computation. }
  split; [exact H150|].
  split.
  { apply (Hover 150 st (js "PLAN.md"));
      try exact H150; try (by_computation); vm_compute; discriminate. }
  split; [apply Hno_model; left; reflexivity|].
  split; [apply Hno_usage; right; reflexivity|].
  by_computation.
Defined.

(* ================================================================== *)
(** ** The promise marker *)
(* ================================================================== *)

Section PromiseFacts.
Import Ralph.

Lemma close_tag_not_ws (c : N) (r : jsstring) :
  is_ws c = true -> strip_prefix close_tag (c :: r) = None.
Proof.
  intros Hws. change close_tag with (60%N :: js "/promise>"). cbn [strip_prefix].
  destruct (N.eqb_spec 60 c) as [<-|]; [discriminate | reflexivity].
Qed.

Lemma star_greedy_ext {A} (p : N -> bool) (k k' : jsstring -> jsstring -> option A) :
  (forall g r, k g r = k' g r) ->
  forall s acc, star_greedy p s acc k = star_greedy p s acc k'.
Proof.
  intros Hk s. induction s as [|c s IH]; intros acc; simpl.
  - apply Hk.
  - destruct (p c); [|apply Hk]. now rewrite IH, Hk.
Qed.

Lemma star_lazy_ext {A} (p : N -> bool) (k k' : jsstring -> jsstring -> option A) :
  (forall g r, k g r = k' g r) ->
  forall s acc, star_lazy p s acc k = star_lazy p s acc k'.
Proof.
  intros Hk s. induction s as [|c s IH]; intros acc; simpl; rewrite Hk.
  - reflexivity.
  - destruct (k' (rev acc) (c :: s)); [reflexivity|]. destruct (p c); [apply IH | reflexivity].
Qed.

(** [\s*<\/promise>]: the greedy run gives nothing back, since the tag
    does not start with whitespace. *)
Lemma spaces_then_close {A} (K : jsstring -> option A) (s acc : jsstring) :
  star_greedy is_ws s acc (fun _ r => lit close_tag r K)
  = lit close_tag (dropWhile is_ws s) K.
Proof.
  revert acc. induction s as [|c s IH]; intros acc; cbn [star_greedy dropWhile];
    [reflexivity|].
  destruct (is_ws c) eqn:Hws; [|reflexivity].
  rewrite IH. destruct (lit close_tag (dropWhile is_ws s) K); [reflexivity|].
  unfold lit. now rewrite close_tag_not_ws.
Qed.

(** Whitespace, then the closing tag: the closing tag is the first one,
    and only whitespace precedes it. *)
Lemma close_after_spaces (s r : jsstring) :
  strip_prefix close_tag (dropWhile is_ws s) = Some r ->
  exists W, find_first close_tag s = Some (W, r) /\ forallb is_ws W = true.
Proof.
  induction s as [|c s IH]; intros Hs.
  - discriminate.
  - cbn [dropWhile] in Hs. rewrite find_first_cons. destruct (is_ws c) eqn:Hws.
    + rewrite close_tag_not_ws by assumption.
      destruct (IH Hs) as (W & -> & Hall). exists (c :: W).
      cbn [forallb]. now rewrite Hws.
    + rewrite Hs. exists []. auto.
Qed.

Lemma dropWhile_spaces_close (W r : jsstring) :
  forallb is_ws W = true -> dropWhile is_ws (W ++ close_tag ++ r) = close_tag ++ r.
Proof.
  induction W as [|c W IH]; cbn [app forallb dropWhile]; [reflexivity|].
  destruct (is_ws c); cbn [andb]; [exact IH | discriminate].
Qed.

(** [(.*?)\s*<\/promise>]: the group ends where only whitespace is left
    before the first closing tag. *)
Lemma lazy_until_close (s acc : jsstring) :
  star_lazy any_char s acc
    (fun group r => lit close_tag (dropWhile is_ws r) (fun r5 => Some (group, r5)))
  = match find_first close_tag s with
    | Some (W, r5) => Some (rev acc ++ trimEnd W, r5)
    | None => None
    end.
Proof.
  revert acc. induction s as [|c s IH]; intros acc.
  - reflexivity.
  - cbn [star_lazy any_char]. unfold lit at 1.
    destruct (strip_prefix close_tag (dropWhile is_ws (c :: s))) as [r5|] eqn:Hclose.
    + destruct (@close_after_spaces _ _ Hclose) as (W & -> & Hall).
      now rewrite (@trimEnd_all _ Hall), app_nil_r.
    + rewrite IH, find_first_cons.
      assert (Hhere : strip_prefix close_tag (c :: s) = None).
      { destruct (is_ws c) eqn:Hws; [now apply close_tag_not_ws|].
        cbn [dropWhile] in Hclose. now rewrite Hws in Hclose. }
      rewrite Hhere.
      destruct (find_first close_tag s) as [[W r5]|] eqn:Hfind; [|reflexivity].
      rewrite trimEnd_cons.
      destruct (is_ws c && forallb is_ws W) eqn:Hall.
      * exfalso. apply andb_true_iff in Hall as [Hws Hall].
        rewrite (@find_first_sound _ _ _ _ Hfind) in Hclose. cbn [dropWhile] in Hclose.
        rewrite ?Hws, (@dropWhile_spaces_close W r5 Hall), strip_prefix_app in Hclose.
        discriminate.
      * cbn [rev]. rewrite <- app_assoc. reflexivity.
Qed.

Lemma find_first_dropWhile (s : jsstring) :
  find_first close_tag (dropWhile is_ws s)
  = match find_first close_tag s with
    | Some (W, r) => Some (dropWhile is_ws W, r)
    | None => None
    end.
Proof.
  induction s as [|c s IH]; [reflexivity|].
  cbn [dropWhile]. destruct (is_ws c) eqn:Hws.
  - rewrite IH, find_first_cons, close_tag_not_ws by assumption.
    destruct (find_first close_tag s) as [[W r]|]; [|reflexivity].
    cbn [dropWhile]. now rewrite Hws.
  - rewrite find_first_cons.
    destruct (strip_prefix close_tag (c :: s)); [reflexivity|].
    destruct (find_first close_tag s) as [[W r]|]; [|reflexivity].
    cbn [dropWhile]. now rewrite Hws.
Qed.

(** The whole expression at one position: the opening tag, then the
    trimmed text up to the first closing tag. *)
Lemma promise_here_first_close (s : jsstring) :
  promise_here s
  = match strip_prefix open_tag s with
    | None => None
    | Some r1 =>
        match find_first close_tag r1 with
        | Some (W, r5) => Some (trim W, r5)
        | None => None
        end
    end.
Proof.
  unfold promise_here, lit at 1.
  destruct (strip_prefix open_tag s) as [r1|]; [|reflexivity].
  set (F := fun r2 : jsstring =>
              match find_first close_tag r2 with
              | Some (W, r5) => Some (trimEnd W, r5)
              | None => None
              end).
  rewrite (@star_greedy_ext _ is_ws _ (fun _ r2 => F r2)).
  2:{ intros _ r2. unfold F.
      rewrite (@star_lazy_ext _ any_char _
                 (fun group r => lit close_tag (dropWhile is_ws r)
                                   (fun r5 => Some (group, r5)))).
      - now rewrite lazy_until_close.
      - intros g r. apply spaces_then_close. }
  assert (Hgreedy : forall r acc,
             star_greedy is_ws r acc (fun _ r2 => F r2) = F (dropWhile is_ws r)).
  { induction r as [|c r IH]; intros acc; cbn [star_greedy dropWhile]; [reflexivity|].
    destruct (is_ws c) eqn:Hws; [|reflexivity].
    rewrite IH. destruct (F (dropWhile is_ws r)) eqn:HF; [reflexivity|].
    unfold F in *. rewrite find_first_dropWhile in HF.
    rewrite find_first_cons, close_tag_not_ws by assumption.
    destruct (find_first close_tag r) as [[W r5]|]; [discriminate | reflexivity]. }
  rewrite Hgreedy. unfold F. rewrite find_first_dropWhile.
  destruct (find_first close_tag r1) as [[W r5]|]; reflexivity.
Qed.

(** The leftmost match: the first opening tag, when a closing tag follows it. *)
Lemma exec_promise_group (text : jsstring) :
  match exec promise_here text with
  | Some (_, group) => Some group
  | None => None
  end
  = match find_first open_tag text with
    | Some (_, r1) =>
        match find_first close_tag r1 with
        | Some (W, _) => Some (trim W)
        | None => None
        end
    | None => None
    end.
Proof.
  induction text as [|c text IH].
  - reflexivity.
  - cbn [exec]. rewrite promise_here_first_close, find_first_cons.
    destruct (strip_prefix open_tag (c :: text)) as [r1|] eqn:Hopen.
    + destruct (find_first close_tag r1) as [[W r5]|] eqn:Hclose; [reflexivity|].
      rewrite IH.
      destruct (find_first open_tag text) as [[pre' r1']|] eqn:Hopen'; [|reflexivity].
      destruct (find_first close_tag r1') as [[W' r5']|] eqn:Hclose'; [|reflexivity].
      exfalso.
      apply strip_prefix_some in Hopen. apply find_first_sound in Hopen'.
      apply find_first_sound in Hclose'.
      assert (Hsuffix : exists x, r1 = x ++ r1').
      { rewrite Hopen' in Hopen.
        rewrite app_comm_cons, app_assoc in Hopen.
        apply app_eq_app in Hopen as [l [[_ Hr] | [Hlen _]]]; [eauto|].
        apply (f_equal (@List.length N)) in Hlen.
        rewrite !length_app in Hlen. simpl in Hlen. lia. }
      destruct Hsuffix as (x & ->).
      apply (@find_first_none close_tag (x ++ r1') (x ++ W') r5' Hclose).
      rewrite Hclose'. now rewrite <- app_assoc.
    + rewrite IH. destruct (find_first open_tag text) as [[pre' r1']|]; reflexivity.
Qed.

Lemma first_marker_find (text W : jsstring) :
  first_marker text W
  <-> exists pre r1 post,
        find_first open_tag text = Some (pre, r1)
        /\ find_first close_tag r1 = Some (W, post).
Proof.
  split.
  - intros (pre & post & Htext & Hfirst & Hclose).
    exists pre, (W ++ close_tag ++ post), post. split.
    + now apply find_first_unique.
    + now apply find_first_unique.
  - intros (pre & r1 & post & Hopen & Hclose).
    exists pre, post. repeat split.
    + rewrite (@find_first_sound _ _ _ _ Hopen).
      now rewrite (@find_first_sound _ _ _ _ Hclose).
    + apply (@find_first_least _ _ _ _ Hopen).
    + rewrite <- (@find_first_sound _ _ _ _ Hclose).
      apply (@find_first_least _ _ _ _ Hclose).
Qed.

(** [extractPromiseText] yields the trimmed text of the first marker. *)
Lemma extractPromiseText_first_marker (text t : jsstring) :
  extractPromiseText text = Some t <-> exists W, first_marker text W /\ t = trim W.
Proof.
  unfold extractPromiseText.
  pose proof (exec_promise_group text) as Hexec.
  split.
  - intros Hext. destruct (exec promise_here text) as [[whole group]|]; [|discriminate].
    injection Hext as <-.
    destruct (find_first open_tag text) as [[pre r1]|] eqn:Hopen; [|discriminate].
    destruct (find_first close_tag r1) as [[W post]|] eqn:Hclose; [|discriminate].
    injection Hexec as ->. exists W. split.
    + apply first_marker_find. eauto.
    + apply trim_idempotent.
  - intros (W & Hmarker & ->). apply first_marker_find in Hmarker.
    destruct Hmarker as (pre & r1 & post & Hopen & Hclose).
    rewrite Hopen, Hclose in Hexec.
    destruct (exec promise_here text) as [[whole group]|]; [|discriminate].
    injection Hexec as ->. now rewrite trim_idempotent.
Qed.

Lemma lastAssistant_most_recent (messages : list AgentMessage) (m : AgentMessage) :
  lastAssistant messages = Some m <-> most_recent_assistant messages m.
Proof.
  unfold lastAssistant, most_recent_assistant.
  induction messages as [|x messages IH] using rev_ind.
  - split; [discriminate|]. intros (before & after & Heq & _). now destruct before.
  - rewrite rev_app_distr. cbn [rev app find]. destruct (isAssistantMessage x) eqn:Hx.
    + split.
      * intros [= <-]. exists messages, []. auto.
      * intros (before & after & Heq & Hm & Hafter).
        destruct after as [|y after _] using rev_ind.
        -- apply app_inj_tail in Heq as [_ ->]. reflexivity.
        -- rewrite app_comm_cons, app_assoc in Heq. apply app_inj_tail in Heq as [_ ->].
           apply Forall_app in Hafter as [_ Hy]. inversion Hy; congruence.
    + rewrite IH. split.
      * intros (before & after & -> & Hm & Hafter).
        exists before, (after ++ [x]). repeat split; auto.
        -- now rewrite <- app_assoc.
        -- apply Forall_app. auto.
      * intros (before & after & Heq & Hm & Hafter).
        destruct after as [|y after _] using rev_ind.
        -- apply app_inj_tail in Heq as [_ ->]. congruence.
        -- rewrite app_comm_cons, app_assoc in Heq. apply app_inj_tail in Heq as [-> ->].
           apply Forall_app in Hafter as [Hafter _].
           exists before, after. auto.
Qed.

End PromiseFacts.

Section CompletionFacts.
Context {H : CodingAgent}.
Import Ralph.

Lemma promise_fulfilled_first_marker (st : RalphState) (messages : list AgentMessage)
    (tag : jsstring) :
  completionPromise st = Some tag -> truthy tag = true ->
  (promise_fulfilled st messages = true
   <-> exists m W,
         most_recent_assistant messages m
         /\ first_marker (extractTextContent m) W
         /\ trim W = tag).
Proof.
  intros Htag Htruthy. unfold promise_fulfilled. rewrite Htag, Htruthy. cbn [andb].
  split.
  - destruct (lastAssistant messages) as [m|] eqn:Hlast; [|discriminate].
    destruct (extractPromiseText (extractTextContent m)) as [t|] eqn:Hext; [|discriminate].
    intros Heq. apply str_eqb_eq in Heq. subst t.
    apply extractPromiseText_first_marker in Hext as (W & Hmarker & Htrim).
    exists m, W. split; [now apply lastAssistant_most_recent | auto].
  - intros (m & W & Hrecent & Hmarker & Htrim).
    apply lastAssistant_most_recent in Hrecent. rewrite Hrecent.
    assert (Hext : extractPromiseText (extractTextContent m) = Some tag).
    { apply extractPromiseText_first_marker. exists W. auto. }
    rewrite Hext. apply str_eqb_refl.
Qed.

Lemma agent_end_fulfilled (messages : list AgentMessage) (ctx : ExtensionContext) (now : Z)
    (st : RalphState) (tag : jsstring) :
  active st = true -> pendingHandoff st = false -> max_reached st = false ->
  completionPromise st = Some tag -> promise_fulfilled st messages = true ->
  agent_end messages ctx now (Some st) = completed st tag now.
Proof.
  intros Ha Hp Hm Htag Hf. unfold agent_end, max_reached, completed in *.
  now rewrite Ha, Hp, Hm, Hf, Htag.
Qed.

Lemma agent_end_not_fulfilled (messages : list AgentMessage) (ctx : ExtensionContext)
    (now : Z) (st : RalphState) :
  active st = true -> pendingHandoff st = false -> max_reached st = false ->
  promise_fulfilled st messages = false ->
  exists st', fst (agent_end messages ctx now (Some st)) = Some st' /\ active st' = true.
Proof.
  intros Ha Hp Hm Hf. unfold agent_end, max_reached in *.
  rewrite Ha, Hp, Hm, Hf. cbn [negb].
  destruct (continue_loop_result ctx st) as (Hfst & _).
  assert (Hnext : active (next_iteration st) = true) by exact Ha.
  destruct (getContextUsagePercent ctx) as [p|]; [|eauto].
  destruct (num_ge p (contextThreshold st)); [|eauto].
  destruct (planFile st) as [plan|].
  - destruct (truthy plan).
    + exists (with_pending st true). auto.
    + destruct (continue_loop ctx st). eauto.
  - destruct (continue_loop ctx st). eauto.
Qed.

End CompletionFacts.

(** C2, as stated, fails in both directions.  A marker whose enclosed
    text is the tag between spaces ends the loop although the text is not
    the tag; and a marker whose enclosed text is the tag does not end the
    loop when another marker precedes it. *)
Lemma completion_tag_not_literal :
  let st := sample_state (Some (js "DONE")) None in
  let ctx := sample_ctx 20000 in
  let padded := "<promise>  DONE  </promise>"%string in
  let second := "<promise>WAIT</promise> then <promise>DONE</promise>"%string in
  (first_marker (js padded) (js "  DONE  ")
   /\ js "  DONE  " <> js "DONE"
   /\ Ralph.agent_end (H := Reference.agent) [assistant_says padded 20000] ctx 5000 (Some st)
      = completed st (js "DONE") 5000)
  /\ (contains_marker (js second) (js "DONE")
      /\ fst (Ralph.agent_end (H := Reference.agent) [assistant_says second 20000] ctx 5000
                (Some st))
         = Some (Ralph.next_iteration st)).
Proof.
  intros st ctx padded second. split; [split; [|split] | split].
  - apply first_marker_find. exists [], (js "  DONE  </promise>"), [].
    split; by_computation.
  - vm_compute. discriminate.
  - by_computation.
  - exists (js "<promise>WAIT</promise> then "), []. by_computation.
  - by_computation.
Qed.

(** C2, amended.  On a turn end of an active loop with a completion tag
    (no handoff pending, max-iterations not reached) the controller looks
    at the most recent assistant message of the turn, and the loop ends as
    successful exactly when the text enclosed by the first promise marker
    of that message, with surrounding whitespace removed, equals the tag;
    otherwise the loop stays active.  With the tag DONE, an assistant
    message that says <promise>DONE</promise> ends the loop, and one that
    says <promise>Done</promise> does not. *)
Theorem completion_tag_detected :
  forall (H : CodingAgent) (ctx : Ralph.ExtensionContext)
         (now : Z) (st : Ralph.RalphState) (tag : jsstring),
    Ralph.active st = true ->
    Ralph.pendingHandoff st = false ->
    max_reached st = false ->
    Ralph.completionPromise st = Some tag ->
    truthy tag = true ->
    (forall messages : list AgentMessage,
        (Ralph.agent_end messages ctx now (Some st) = completed st tag now
         <-> exists m W,
               most_recent_assistant messages m
               /\ first_marker (Ralph.extractTextContent m) W
               /\ trim W = tag)
        /\ (Ralph.agent_end messages ctx now (Some st) = completed st tag now
            \/ exists st',
                 fst (Ralph.agent_end messages ctx now (Some st)) = Some st'
                 /\ Ralph.active st' = true))
    /\ (tag = js "DONE" ->
        forall used,
          Ralph.agent_end [assistant_says "<promise>DONE</promise>" used] ctx now (Some st)
          = completed st tag now
          /\ Ralph.agent_end [assistant_says "<promise>Done</promise>" used] ctx now (Some st)
             <> completed st tag now).
Proof.
  intros H ctx now st tag Ha Hp Hm Htag Htruthy.
  assert (Hgeneral : forall messages : list AgentMessage,
             (Ralph.agent_end messages ctx now (Some st) = completed st tag now
              <-> exists m W,
                    most_recent_assistant messages m
                    /\ first_marker (Ralph.extractTextContent m) W
                    /\ trim W = tag)
             /\ (Ralph.agent_end messages ctx now (Some st) = completed st tag now
                 \/ exists st',
                      fst (Ralph.agent_end messages ctx now (Some st)) = Some st'
                      /\ Ralph.active st' = true)).
  { intros messages.
    pose proof (@promise_fulfilled_first_marker st messages tag Htag Htruthy) as Hiff.
    destruct (Ralph.promise_fulfilled st messages) eqn:Hf.
    - assert (Hdone := @agent_end_fulfilled H messages ctx now st tag Ha Hp Hm Htag Hf).
      split; [|now left]. split; [intros _; now apply Hiff | auto].
    - destruct (@agent_end_not_fulfilled H messages ctx now st Ha Hp Hm Hf)
        as (st' & Hfst & Ha').
      split; [|right; eauto]. split.
      + intros Hdone. rewrite Hdone in Hfst. discriminate.
      + intros Hfound. apply Hiff in Hfound. discriminate. }
  split; [exact Hgeneral|].
  intros -> used. split.
  - apply (Hgeneral [assistant_says "<promise>DONE</promise>" used]).
    exists (assistant_says "<promise>DONE</promise>" used), (js "DONE").
    split; [|split].
    + exists [], []. repeat split; constructor.
    + apply first_marker_find. exists [], (js "DONE</promise>"), [].
      split; by_computation.
    + by_computation.
  - intros Hdone.
    apply (Hgeneral [assistant_says "<promise>Done</promise>" used]) in Hdone.
    destruct Hdone as (m & W & Hrecent & Hmarker & Htrim).
    apply lastAssistant_most_recent in Hrecent.
    assert (Hm' : m = assistant_says "<promise>Done</promise>" used).
    { unfold Ralph.lastAssistant in Hrecent. cbn [rev app find] in Hrecent.
      replace (Ralph.isAssistantMessage (assistant_says "<promise>Done</promise>" used))
        with true in Hrecent by (symmetry; by_computation).
      congruence. }
    subst m.
    assert (Hext : Ralph.extractPromiseText
                     (Ralph.extractTextContent
                        (assistant_says "<promise>Done</promise>" used))
                   = Some (trim W)).
    { apply extractPromiseText_first_marker. exists W. auto. }
    rewrite Htrim in Hext. vm_compute in Hext. discriminate.
Qed.

(** With the tag DONE: a marker after other text, and a near match. *)
Lemma completion_tag_detected_witness :
  let st := sample_state (Some (js "DONE")) None in
  let ctx := sample_ctx 20000 in
  Ralph.agent_end (H := Reference.agent)
    [assistant_says "All tests pass. <promise>DONE</promise>" 20000] ctx 5000 (Some st)
  = completed st (js "DONE") 5000
  /\ Ralph.agent_end (H := Reference.agent)
       [assistant_says "<promise>Done</promise>" 20000] ctx 5000 (Some st)
     <> completed st (js "DONE") 5000.
Proof.
  intros st ctx.
  destruct (@completion_tag_detected Reference.agent ctx 5000 st (js "DONE")
              eq_refl eq_refl eq_refl eq_refl eq_refl) as (Hgeneral & Hdone).
  split.
  - apply (Hgeneral [assistant_says "All tests pass. <promise>DONE</promise>" 20000]).
    exists (assistant_says "All tests pass. <promise>DONE</promise>" 20000), (js "DONE").
    split; [|split].
    + exists [], []. repeat split; constructor.
    + apply first_marker_find. exists (js "All tests pass. "), (js "DONE</promise>"), [].
      split; by_computation.
    + by_computation.
  - apply (Hdone eq_refl 20000%float).
Defined.

(** C10, as stated, on a text with two markers: the text contains a
    marker whose enclosed text is the tag once the whitespace around it is
    removed, and the loop does not end, because an earlier marker is the
    one that is read.  Nor does a matching marker end a loop whose handoff
    is pending: that turn end does not reach the completion check. *)
Lemma completion_tag_later_marker :
  let st := sample_state (Some (js "DONE")) None in
  let ctx := sample_ctx 20000 in
  let text := "Step 1 <promise>TODO</promise>; at the end: <promise> DONE </promise>"%string in
  (contains_marker (js text) (js " DONE ")
   /\ trim (js " DONE ") = js "DONE"
   /\ Ralph.extractPromiseText (js text) = Some (js "TODO")
   /\ fst (Ralph.agent_end (H := Reference.agent) [assistant_says text 20000] ctx 5000
             (Some st))
      = Some (Ralph.next_iteration st))
  /\ (contains_marker (js "<promise> DONE </promise>") (js " DONE ")
      /\ fst (Ralph.agent_end (H := Reference.agent)
                [assistant_says "<promise> DONE </promise>" 20000] ctx 5000
                (Some (Ralph.with_pending st true)))
         = Some (Ralph.with_pending st true)).
Proof.
  intros st ctx text. split; [split; [|repeat split; by_computation] | split].
  - exists (js "Step 1 <promise>TODO</promise>; at the end: "), []. by_computation.
  - exists [], []. by_computation.
  - by_computation.
Qed.

(** C10, amended.  The match strips the whitespace around the text inside
    the marker: on a turn end that reaches the completion check (active
    loop, no handoff pending, max-iterations not reached), for every
    configured tag T and every text of the most recent assistant message
    whose first promise marker encloses W, if W with its leading and
    trailing whitespace removed equals T, the loop ends as successful,
    also when W itself is not T. *)
Theorem completion_tag_trimmed :
  forall (H : CodingAgent) (messages : list AgentMessage) (ctx : Ralph.ExtensionContext)
         (now : Z) (st : Ralph.RalphState) (tag : jsstring) (m : AgentMessage)
         (W : jsstring),
    Ralph.active st = true ->
    Ralph.pendingHandoff st = false ->
    max_reached st = false ->
    Ralph.completionPromise st = Some tag ->
    truthy tag = true ->
    most_recent_assistant messages m ->
    first_marker (Ralph.extractTextContent m) W ->
    trim W = tag ->
    Ralph.agent_end messages ctx now (Some st) = completed st tag now.
Proof.
  intros H messages ctx now st tag m W Ha Hp Hm Htag Htruthy Hrecent Hmarker Htrim.
  apply agent_end_fulfilled; auto.
  apply (@promise_fulfilled_first_marker st messages tag Htag Htruthy). eauto.
Qed.

(** With the tag DONE and the marker text between spaces. *)
Lemma completion_tag_trimmed_witness :
  let st := sample_state (Some (js "DONE")) None in
  let m := assistant_says "Finished. <promise>  DONE  </promise>" 20000 in
  js "  DONE  " <> js "DONE"
  /\ Ralph.agent_end (H := Reference.agent) [assistant_says "Looking" 10000; m]
       (sample_ctx 20000) 5000 (Some st)
     = completed st (js "DONE") 5000.
Proof.
  intros st m. split; [vm_compute; discriminate|].
  apply (@completion_tag_trimmed Reference.agent _ _ _ st (js "DONE") m (js "  DONE  "));
    try reflexivity.
  - exists [assistant_says "Looking" 10000], []. repeat split; constructor.
  - apply first_marker_find. exists (js "Finished. "), (js "  DONE  </promise>"), [].
    split; by_computation.
Defined.
